(** * Music-App: songs and playlists canister (src/index.ts)

    A shallow embedding of the canister's update and query methods, and
    the properties of its playlist bookkeeping.

    Modelling conventions.
    - [StableBTreeMap<string, V>] is a finite map [gmap string V].  The
      size limits given to its constructor (44-byte keys, 1024-byte
      values) and the trap of an oversized insertion are not represented:
      every insertion succeeds, so the [catch] branches of [uploadSong]
      and [createPlaylist] are never entered.
    - [int64] values are JavaScript bigints while a call runs; they are
      integers of [Z] here and no wrap-around is applied, as none is in
      the source.  A total that left the 64-bit range could not be
      encoded on insertion; like the size limits this is not
      represented.  [nat64] timestamps are [N].
    - [int64] is imported from the library as a type.  The places that
      apply it to an argument, [int64(...)], therefore throw; an
      exception is the outer [None] of an [option] result.
    - A [Principal] is only ever compared through [toString()], so it is
      represented by that text.
    - [ic.caller()], [ic.time()] and [uuidv4()] are read from the
      environment; here they are explicit arguments of the method that
      reads them.
    - A record fetched with [get] is a fresh copy decoded from stable
      memory: mutating it inside a call changes the map only through a
      later [insert]. *)

From Stdlib Require Import ZArith.
From stdpp Require Import gmap strings list fin_maps.

Local Open Scope string_scope.
Local Open Scope Z_scope.

(** ** Data model *)

Definition Principal : Type := string.

Module Song.
Record t : Type := mk {
  id : string;
  fileName : string;
  mimeType : string;
  title : string;
  singers : list string;
  genre : string;
  duration : Z;
  releaseDate : string;
  uploadedAt : N
}.
End Song.

Module SongPayload.
Record t : Type := mk {
  fileName : string;
  mimeType : string;
  title : string;
  singers : list string;
  genre : string;
  duration : Z;
  releaseDate : string
}.
End SongPayload.

Module Playlist.
Record t : Type := mk {
  id : string;
  admin : Principal;
  name : string;
  description : string;
  songs : list string;
  totalDuration : Z;
  createdAt : N;
  updatedAt : option N
}.
End Playlist.

Module PlaylistPayload.
Record t : Type := mk {
  name : string;
  description : string
}.
End PlaylistPayload.

Abbreviation Song := Song.t.
Abbreviation SongPayload := SongPayload.t.
Abbreviation Playlist := Playlist.t.
Abbreviation PlaylistPayload := PlaylistPayload.t.

Inductive Result (T E : Type) : Type :=
| Ok (value : T)
| Err (error : E).
Arguments Ok {T E} value.
Arguments Err {T E} error.

(** The two stable maps of the canister. *)
Record State : Type := mkState {
  songsStorage : gmap string Song;
  playlistsStorage : gmap string Playlist
}.

Definition init : State := mkState ∅ ∅.

(** ** Error messages *)

Module ErrMessages.
Definition fieldCannotBeEmpty (fieldName : string) : string :=
  fieldName +:+ " cannot be empty.".
Definition recordWithIdNotFound (recordName id : string) : string :=
  recordName +:+ " with id=" +:+ id +:+ " not found.".
Definition nonAdmin (id : string) : string :=
  "IC caller isn't the admin of the playlist with id " +:+ id +:+ ".".
Definition couldNotUpdate (recordName id : string) : string :=
  "Couldn't update the " +:+ recordName +:+ " with id=" +:+ id
  +:+ ", because record not found.".
Definition couldNotRemove (recordName id : string) : string :=
  "Couldn't remove the " +:+ recordName +:+ " with id=" +:+ id
  +:+ ", because record not found.".
Definition alreadyExists (recordName : string) : string :=
  recordName +:+ " already exists.".
End ErrMessages.

Definition singersMissing : string := "You must provide singer(s).".
Definition nothingAdded : string :=
  "Unable to find the songs you wanted to add or they all already exist.".

(** ** JavaScript helpers *)

(** [a === b] on strings. *)
Definition strict_eq (a b : string) : bool := bool_decide (a = b).

(** Truthiness of a string: only the empty string is falsy. *)
Definition truthy (s : string) : bool := negb (strict_eq s "").

(** [StableBTreeMap.values()].  The B-tree yields the values in key
    order; the methods below only test whether some value satisfies a
    predicate, so the order is left to [map_to_list]. *)
Definition values {V : Type} (m : gmap string V) : list V :=
  (map_to_list m).*2.

(** [Array.prototype.findIndex]; [None] stands for [-1]. *)
Fixpoint findIndex {A : Type} (f : A -> bool) (l : list A) : option nat :=
  match l with
  | [] => None
  | x :: l' => if f x then Some 0%nat else S <$> findIndex f l'
  end.

(** [arr.splice(i, 1)]. *)
Definition splice1 {A : Type} (i : nat) (l : list A) : list A := delete i l.

(** ** Create *)

(** In both methods of this section the [insert] sits in a [try] whose
    [catch] returns an insertion error.  The map model has no failing
    insertion, so that error is not among the results below; what is
    proved of these methods is either about results reached before the
    insertion or conditional on an [Ok] result. *)

Definition uploadSong (uuid : string) (now : N) (payload : SongPayload)
    (st : State) : State * Result Song string :=
  if strict_eq (SongPayload.fileName payload) "" then
    (st, Err (ErrMessages.fieldCannotBeEmpty "File name"))
  else if strict_eq (SongPayload.mimeType payload) "" then
    (st, Err (ErrMessages.fieldCannotBeEmpty "File type"))
  else if strict_eq (SongPayload.title payload) "" then
    (st, Err (ErrMessages.fieldCannotBeEmpty "Title"))
  else if (length (SongPayload.singers payload) =? 0)%nat then
    (st, Err singersMissing)
  else
    let existingSong :=
      List.find (fun song =>
                   strict_eq (Song.fileName song) (SongPayload.fileName payload)
                   && strict_eq (Song.title song) (SongPayload.title payload))
                (values (songsStorage st)) in
    match existingSong with
    | Some _ => (st, Err (ErrMessages.alreadyExists "Song"))
    | None =>
        let song :=
          Song.mk uuid
                  (SongPayload.fileName payload)
                  (SongPayload.mimeType payload)
                  (SongPayload.title payload)
                  (SongPayload.singers payload)
                  (SongPayload.genre payload)
                  (SongPayload.duration payload)
                  (SongPayload.releaseDate payload)
                  now in
        (mkState (<[Song.id song := song]> (songsStorage st))
                 (playlistsStorage st),
         Ok song)
    end.

Definition createPlaylist (uuid : string) (caller : Principal) (now : N)
    (payload : PlaylistPayload) (st : State)
    : State * Result Playlist string :=
  if strict_eq (PlaylistPayload.name payload) "" then
    (st, Err (ErrMessages.fieldCannotBeEmpty "Playlist name"))
  else
    let existingPlaylist :=
      List.find (fun playlist =>
                   strict_eq (Playlist.name playlist)
                             (PlaylistPayload.name payload))
                (values (playlistsStorage st)) in
    match existingPlaylist with
    | Some _ => (st, Err (ErrMessages.alreadyExists "Playlist"))
    | None =>
        let playlist :=
          Playlist.mk uuid caller
                      (PlaylistPayload.name payload)
                      (PlaylistPayload.description payload)
                      [] 0 now None in
        (mkState (songsStorage st)
                 (<[Playlist.id playlist := playlist]> (playlistsStorage st)),
         Ok playlist)
    end.

(** ** Read *)

Definition getSong (id : string) (st : State) : Result Song string :=
  if strict_eq id "" then
    Err (ErrMessages.fieldCannotBeEmpty "Song id")
  else
    match songsStorage st !! id with
    | Some song => Ok song
    | None => Err (ErrMessages.recordWithIdNotFound "Song" id)
    end.

Definition getPlaylist (id : string) (st : State) : Result Playlist string :=
  if strict_eq id "" then
    Err (ErrMessages.fieldCannotBeEmpty "Playlist id")
  else
    match playlistsStorage st !! id with
    | Some playlist => Ok playlist
    | None => Err (ErrMessages.recordWithIdNotFound "Playlist" id)
    end.

(** ** Update *)

Definition updatePlaylist (caller : Principal) (now : N) (id : string)
    (payload : PlaylistPayload) (st : State)
    : State * Result Playlist string :=
  match playlistsStorage st !! id with
  | Some playlist =>
      if negb (strict_eq (Playlist.admin playlist) caller) then
        (st, Err (ErrMessages.nonAdmin id))
      else
        let updatedPlaylist :=
          Playlist.mk (Playlist.id playlist)
                      (Playlist.admin playlist)
                      (PlaylistPayload.name payload)
                      (PlaylistPayload.description payload)
                      (Playlist.songs playlist)
                      (Playlist.totalDuration playlist)
                      (Playlist.createdAt playlist)
                      (Some now) in
        (mkState (songsStorage st)
                 (<[Playlist.id playlist := updatedPlaylist]>
                    (playlistsStorage st)),
         Ok updatedPlaylist)
  | None => (st, Err (ErrMessages.couldNotUpdate "playlist" id))
  end.

(** [{...playlist, updatedAt: Opt.Some(ic.time())}]. *)
Definition withUpdatedAt (playlist : Playlist) (now : N) : Playlist :=
  Playlist.mk (Playlist.id playlist)
              (Playlist.admin playlist)
              (Playlist.name playlist)
              (Playlist.description playlist)
              (Playlist.songs playlist)
              (Playlist.totalDuration playlist)
              (Playlist.createdAt playlist)
              (Some now).

(** The two assignments of the loop body of [addSongsToPlaylist]:
    [songs.push(songId)] and [totalDuration += duration]. *)
Definition pushSong (playlist : Playlist) (songId : string) (duration : Z)
    : Playlist :=
  Playlist.mk (Playlist.id playlist)
              (Playlist.admin playlist)
              (Playlist.name playlist)
              (Playlist.description playlist)
              (Playlist.songs playlist ++ [songId])
              (Playlist.totalDuration playlist + duration)
              (Playlist.createdAt playlist)
              (Playlist.updatedAt playlist).

(** One round of the [forEach] of [addSongsToPlaylist]: the pair is the
    record being built together with [addFlag].  [find] returns the
    matching element or [undefined], and the result is then tested for
    truthiness. *)
Definition addSong (songs : gmap string Song) (acc : Playlist * bool)
    (songId : string) : Playlist * bool :=
  let updatedPlaylist := acc.1 in
  match songs !! songId with
  | Some existingSong =>
      let duplicatedSong :=
        List.find (fun id => strict_eq id songId)
                  (Playlist.songs updatedPlaylist) in
      if from_option truthy false duplicatedSong then acc
      else (pushSong updatedPlaylist songId (Song.duration existingSong),
            true)
  | None => acc
  end.

Definition addSongsToPlaylist (caller : Principal) (now : N) (id : string)
    (songs : list string) (st : State) : State * Result Playlist string :=
  if (length songs =? 0)%nat then
    (st, Err (ErrMessages.fieldCannotBeEmpty "Song list"))
  else
    match playlistsStorage st !! id with
    | Some playlist =>
        if negb (strict_eq (Playlist.admin playlist) caller) then
          (st, Err (ErrMessages.nonAdmin id))
        else
          let '(updatedPlaylist, addFlag) :=
            fold_left (addSong (songsStorage st)) songs
                      (withUpdatedAt playlist now, false) in
          if negb addFlag then (st, Err nothingAdded)
          else
            (mkState (songsStorage st)
                     (<[Playlist.id playlist := updatedPlaylist]>
                        (playlistsStorage st)),
             Ok updatedPlaylist)
    | None => (st, Err (ErrMessages.couldNotUpdate "playlist" id))
    end.

(** Function 2 of the file: replaces every payload field of a song,
    its duration included; no caller check is made. *)
Definition updateSong (id : string) (payload : SongPayload) (st : State)
    : State * Result Song string :=
  match songsStorage st !! id with
  | Some song =>
      let updatedSong :=
        Song.mk (Song.id song)
                (SongPayload.fileName payload)
                (SongPayload.mimeType payload)
                (SongPayload.title payload)
                (SongPayload.singers payload)
                (SongPayload.genre payload)
                (SongPayload.duration payload)
                (SongPayload.releaseDate payload)
                (Song.uploadedAt song) in
      (mkState (<[id := updatedSong]> (songsStorage st))
               (playlistsStorage st),
       Ok updatedSong)
  | None => (st, Err (ErrMessages.couldNotUpdate "song" id))
  end.

(** ** Delete *)

Definition deletePlaylist (caller : Principal) (id : string) (st : State)
    : State * Result Playlist string :=
  match playlistsStorage st !! id with
  | Some playlist =>
      if negb (strict_eq (Playlist.admin playlist) caller) then
        (st, Err (ErrMessages.nonAdmin id))
      else
        (mkState (songsStorage st) (delete id (playlistsStorage st)),
         Ok playlist)
  | None => (st, Err (ErrMessages.couldNotRemove "playlist" id))
  end.

(** The [totalDuration] written by [deleteSongFromPlaylist]:
    [deletingSong] is the catalogue entry of the removed id, if any. *)
Definition durationAfterDelete (totalDuration : Z)
    (deletingSong : option Song) : Z :=
  match deletingSong with
  | Some song =>
      if 0 <=? totalDuration - Song.duration song
      then totalDuration - Song.duration song
      else 0
  | None => 0
  end.

Definition deleteSongFromPlaylist (caller : Principal) (now : N)
    (playlistId songId : string) (st : State)
    : State * Result Playlist string :=
  if strict_eq playlistId "" then
    (st, Err (ErrMessages.fieldCannotBeEmpty "Playlist id"))
  else if strict_eq songId "" then
    (st, Err (ErrMessages.fieldCannotBeEmpty "Song id"))
  else
    match playlistsStorage st !! playlistId with
    | Some playlist =>
        if negb (strict_eq (Playlist.admin playlist) caller) then
          (st, Err (ErrMessages.nonAdmin playlistId))
        else
          match findIndex (fun id => strict_eq id songId)
                          (Playlist.songs playlist) with
          | Some songIndex =>
              let deletingSong := songsStorage st !! songId in
              let updatedPlaylist :=
                Playlist.mk (Playlist.id playlist)
                            (Playlist.admin playlist)
                            (Playlist.name playlist)
                            (Playlist.description playlist)
                            (splice1 songIndex (Playlist.songs playlist))
                            (durationAfterDelete
                               (Playlist.totalDuration playlist) deletingSong)
                            (Playlist.createdAt playlist)
                            (Some now) in
              (mkState (songsStorage st)
                       (<[Playlist.id playlist := updatedPlaylist]>
                          (playlistsStorage st)),
               Ok updatedPlaylist)
          | None => (st, Ok playlist)
          end
    | None => (st, Err (ErrMessages.couldNotRemove "playlist" playlistId))
    end.

(** ** Further queries (functions 1 to 8 of the file) *)

(** [array.includes(x)] on strings. *)
Definition includes (l : list string) (x : string) : bool :=
  existsb (fun y => strict_eq y x) l.

Definition getSongs (st : State) : Result (list Song) string :=
  Ok (values (songsStorage st)).

Definition getPlaylists (st : State) : Result (list Playlist) string :=
  Ok (values (playlistsStorage st)).

Definition getSongsByGenre (genre : string) (st : State)
    : Result (list Song) string :=
  Ok (List.filter (fun song => strict_eq (Song.genre song) genre)
                  (values (songsStorage st))).

Definition getSongsBySinger (singer : string) (st : State)
    : Result (list Song) string :=
  Ok (List.filter (fun song => includes (Song.singers song) singer)
                  (values (songsStorage st))).

Definition getPlaylistsByAdmin (admin : Principal) (st : State)
    : Result (list Playlist) string :=
  Ok (List.filter (fun playlist => strict_eq (Playlist.admin playlist) admin)
                  (values (playlistsStorage st))).

(** [songIds.map(songId => songsStorage.get(songId).Some)]: an id that
    is not in the catalogue gives [undefined], here [None]. *)
Definition getPlaylistSongs (id : string) (st : State)
    : Result (list (option Song)) string :=
  match playlistsStorage st !! id with
  | Some playlist =>
      Ok (List.map (fun songId => songsStorage st !! songId)
                   (Playlist.songs playlist))
  | None => Err (ErrMessages.recordWithIdNotFound "Playlist" id)
  end.

Definition getPlaylistTotalDuration (id : string) (st : State)
    : Result Z string :=
  match playlistsStorage st !! id with
  | Some playlist => Ok (Playlist.totalDuration playlist)
  | None => Err (ErrMessages.recordWithIdNotFound "Playlist" id)
  end.

(** [int64(x)]: the name is a type of the library, not a function, so
    applying it throws a [TypeError]; [None] stands for the exception. *)
Definition int64 (x : Z) : option Z := None.

(** [None] when the call ends in that [TypeError]. *)
Definition getPlaylistSongCount (id : string) (st : State)
    : option (Result Z string) :=
  match playlistsStorage st !! id with
  | Some playlist =>
      count ← int64 (Z.of_nat (length (Playlist.songs playlist)));
      Some (Ok count)
  | None => Some (Err (ErrMessages.recordWithIdNotFound "Playlist" id))
  end.

(** [playlistSongs.some(song => song.genre === genre)].  Reading
    [genre] off [undefined] throws a [TypeError]; the outer [None]
    stands for that exception.  [some] stops at the first match. *)
Fixpoint someGenre (genre : string) (playlistSongs : list (option Song))
    : option bool :=
  match playlistSongs with
  | [] => Some false
  | None :: _ => None
  | Some song :: rest =>
      if strict_eq (Song.genre song) genre then Some true
      else someGenre genre rest
  end.

(** [array.filter(f)] for a callback that may throw. *)
Fixpoint filterThrowing {A : Type} (f : A -> option bool) (l : list A)
    : option (list A) :=
  match l with
  | [] => Some []
  | x :: rest =>
      match f x with
      | None => None
      | Some keep =>
          match filterThrowing f rest with
          | None => None
          | Some kept => Some (if keep then x :: kept else kept)
          end
      end
  end.

(** [None] when the call ends in the [TypeError] above. *)
Definition getPlaylistsByGenre (genre : string) (st : State)
    : option (Result (list Playlist) string) :=
  Ok <$> filterThrowing
           (fun playlist =>
              someGenre genre
                (List.map (fun songId => songsStorage st !! songId)
                          (Playlist.songs playlist)))
           (values (playlistsStorage st)).

(** ** Calls and reachable states *)

(** The update methods of the canister, each with the values it reads
    from its environment.  Query methods do not change the state. *)
Inductive Call : Type :=
| UploadSong (uuid : string) (now : N) (payload : SongPayload)
| CreatePlaylist (uuid : string) (caller : Principal) (now : N)
                 (payload : PlaylistPayload)
| UpdatePlaylist (caller : Principal) (now : N) (id : string)
                 (payload : PlaylistPayload)
| AddSongsToPlaylist (caller : Principal) (now : N) (id : string)
                     (songs : list string)
| UpdateSong (id : string) (payload : SongPayload)
| DeletePlaylist (caller : Principal) (id : string)
| DeleteSongFromPlaylist (caller : Principal) (now : N)
                         (playlistId songId : string).

Definition exec (c : Call) (st : State) : State :=
  match c with
  | UploadSong uuid now payload => (uploadSong uuid now payload st).1
  | CreatePlaylist uuid caller now payload =>
      (createPlaylist uuid caller now payload st).1
  | UpdatePlaylist caller now id payload =>
      (updatePlaylist caller now id payload st).1
  | AddSongsToPlaylist caller now id songs =>
      (addSongsToPlaylist caller now id songs st).1
  | UpdateSong id payload => (updateSong id payload st).1
  | DeletePlaylist caller id => (deletePlaylist caller id st).1
  | DeleteSongFromPlaylist caller now playlistId songId =>
      (deleteSongFromPlaylist caller now playlistId songId st).1
  end.

(** [uuidv4()] returns a 36-character string; all that is used of it
    below is that it is not empty. *)
Definition uuid_ok (c : Call) : bool :=
  match c with
  | UploadSong uuid _ _ => truthy uuid
  | CreatePlaylist uuid _ _ _ => truthy uuid
  | _ => true
  end.

(** States reached from [init] by calls that pass the check [ok] in
    the state they are made in. *)
Inductive reachable_via (ok : State -> Call -> bool) : State -> Prop :=
| reach_init : reachable_via ok init
| reach_call st c :
    reachable_via ok st -> ok st c = true -> reachable_via ok (exec c st).

Definition reachable : State -> Prop := reachable_via (fun _ => uuid_ok).

(** Running a list of calls, and checking them on the way. *)
Definition run (calls : list Call) (st : State) : State :=
  fold_left (fun s c => exec c s) calls st.

Fixpoint calls_ok (ok : State -> Call -> bool) (calls : list Call)
    (st : State) : bool :=
  match calls with
  | [] => true
  | c :: calls' => ok st c && calls_ok ok calls' (exec c st)
  end.

(** ** The second revision of the file (index.ts, from line 366)

    It differs from the first in its guards: texts and ids are also
    refused when [trim()] empties them, every method that takes a
    playlist id checks it, and an empty song list has a message of its
    own.  It also writes [int64(0)] where the first has [BigInt(0)] or
    [0]: [createPlaylist] and [deleteSongFromPlaylist] return an
    [option], [None] being the exception this raises.
    [String.prototype.trim] is a parameter. *)

Module Revision2.
Section with_trim.
Variable trim : string -> string.

(** [!s || !s.trim()]. *)
Definition blank (s : string) : bool :=
  negb (truthy s) || negb (truthy (trim s)).

Definition invalidSongList : string := "Invalid song list.".

Definition uploadSong (uuid : string) (now : N) (payload : SongPayload)
    (st : State) : State * Result Song string :=
  if blank (SongPayload.fileName payload) then
    (st, Err (ErrMessages.fieldCannotBeEmpty "File name"))
  else if blank (SongPayload.mimeType payload) then
    (st, Err (ErrMessages.fieldCannotBeEmpty "File type"))
  else if blank (SongPayload.title payload) then
    (st, Err (ErrMessages.fieldCannotBeEmpty "Title"))
  else if (length (SongPayload.singers payload) =? 0)%nat then
    (st, Err singersMissing)
  else
    let existingSong :=
      List.find (fun song =>
                   strict_eq (Song.fileName song) (SongPayload.fileName payload)
                   && strict_eq (Song.title song) (SongPayload.title payload))
                (values (songsStorage st)) in
    match existingSong with
    | Some _ => (st, Err (ErrMessages.alreadyExists "Song"))
    | None =>
        let song :=
          Song.mk uuid
                  (SongPayload.fileName payload)
                  (SongPayload.mimeType payload)
                  (SongPayload.title payload)
                  (SongPayload.singers payload)
                  (SongPayload.genre payload)
                  (SongPayload.duration payload)
                  (SongPayload.releaseDate payload)
                  now in
        (mkState (<[Song.id song := song]> (songsStorage st))
                 (playlistsStorage st),
         Ok song)
    end.

(** The record is built before the [try]: [int64(0)] throws there. *)
Definition createPlaylist (uuid : string) (caller : Principal) (now : N)
    (payload : PlaylistPayload) (st : State)
    : option (State * Result Playlist string) :=
  if blank (PlaylistPayload.name payload) then
    Some (st, Err (ErrMessages.fieldCannotBeEmpty "Playlist name"))
  else
    let existingPlaylist :=
      List.find (fun playlist =>
                   strict_eq (Playlist.name playlist)
                             (PlaylistPayload.name payload))
                (values (playlistsStorage st)) in
    match existingPlaylist with
    | Some _ => Some (st, Err (ErrMessages.alreadyExists "Playlist"))
    | None =>
        zero ← int64 0;
        let playlist :=
          Playlist.mk uuid caller
                      (PlaylistPayload.name payload)
                      (PlaylistPayload.description payload)
                      [] zero now None in
        Some (mkState (songsStorage st)
                (<[Playlist.id playlist := playlist]> (playlistsStorage st)),
              Ok playlist)
    end.

Definition getSong (id : string) (st : State) : Result Song string :=
  if blank id then
    Err (ErrMessages.fieldCannotBeEmpty "Song id")
  else
    match songsStorage st !! id with
    | Some song => Ok song
    | None => Err (ErrMessages.recordWithIdNotFound "Song" id)
    end.

Definition getPlaylist (id : string) (st : State) : Result Playlist string :=
  if blank id then
    Err (ErrMessages.fieldCannotBeEmpty "Playlist id")
  else
    match playlistsStorage st !! id with
    | Some playlist => Ok playlist
    | None => Err (ErrMessages.recordWithIdNotFound "Playlist" id)
    end.

(** After the id check the text is that of the first revision. *)
Definition updatePlaylist (caller : Principal) (now : N) (id : string)
    (payload : PlaylistPayload) (st : State)
    : State * Result Playlist string :=
  if blank id then
    (st, Err (ErrMessages.fieldCannotBeEmpty "Playlist id"))
  else
    match playlistsStorage st !! id with
    | Some playlist =>
        if negb (strict_eq (Playlist.admin playlist) caller) then
          (st, Err (ErrMessages.nonAdmin id))
        else
          let updatedPlaylist :=
            Playlist.mk (Playlist.id playlist)
                        (Playlist.admin playlist)
                        (PlaylistPayload.name payload)
                        (PlaylistPayload.description payload)
                        (Playlist.songs playlist)
                        (Playlist.totalDuration playlist)
                        (Playlist.createdAt playlist)
                        (Some now) in
          (mkState (songsStorage st)
                   (<[Playlist.id playlist := updatedPlaylist]>
                      (playlistsStorage st)),
           Ok updatedPlaylist)
    | None => (st, Err (ErrMessages.couldNotUpdate "playlist" id))
    end.

Definition addSongsToPlaylist (caller : Principal) (now : N) (id : string)
    (songs : list string) (st : State) : State * Result Playlist string :=
  if blank id then
    (st, Err (ErrMessages.fieldCannotBeEmpty "Playlist id"))
  else if (length songs =? 0)%nat then
    (st, Err invalidSongList)
  else
    match playlistsStorage st !! id with
    | Some playlist =>
        if negb (strict_eq (Playlist.admin playlist) caller) then
          (st, Err (ErrMessages.nonAdmin id))
        else
          let '(updatedPlaylist, addFlag) :=
            fold_left (addSong (songsStorage st)) songs
                      (withUpdatedAt playlist now, false) in
          if negb addFlag then (st, Err nothingAdded)
          else
            (mkState (songsStorage st)
                     (<[Playlist.id playlist := updatedPlaylist]>
                        (playlistsStorage st)),
             Ok updatedPlaylist)
    | None => (st, Err (ErrMessages.couldNotUpdate "playlist" id))
    end.

Definition deletePlaylist (caller : Principal) (id : string) (st : State)
    : State * Result Playlist string :=
  if blank id then
    (st, Err (ErrMessages.fieldCannotBeEmpty "Playlist id"))
  else
    match playlistsStorage st !! id with
    | Some playlist =>
        if negb (strict_eq (Playlist.admin playlist) caller) then
          (st, Err (ErrMessages.nonAdmin id))
        else
          (mkState (songsStorage st) (delete id (playlistsStorage st)),
           Ok playlist)
    | None => (st, Err (ErrMessages.couldNotRemove "playlist" id))
    end.

(** [if (deletingSong && totalDuration - duration >= int64(0))
    totalDuration = totalDuration - duration; else totalDuration =
    int64(0)]: either way [int64(0)] is evaluated. *)
Definition durationAfterDelete (totalDuration : Z)
    (deletingSong : option Song) : option Z :=
  match deletingSong with
  | Some song =>
      zero ← int64 0;
      if zero <=? totalDuration - Song.duration song
      then Some (totalDuration - Song.duration song)
      else int64 0
  | None => int64 0
  end.

Definition deleteSongFromPlaylist (caller : Principal) (now : N)
    (playlistId songId : string) (st : State)
    : option (State * Result Playlist string) :=
  if blank playlistId then
    Some (st, Err (ErrMessages.fieldCannotBeEmpty "Playlist id"))
  else if blank songId then
    Some (st, Err (ErrMessages.fieldCannotBeEmpty "Song id"))
  else
    match playlistsStorage st !! playlistId with
    | Some playlist =>
        if negb (strict_eq (Playlist.admin playlist) caller) then
          Some (st, Err (ErrMessages.nonAdmin playlistId))
        else
          match findIndex (fun id => strict_eq id songId)
                          (Playlist.songs playlist) with
          | Some songIndex =>
              let deletingSong := songsStorage st !! songId in
              newTotal ← durationAfterDelete
                           (Playlist.totalDuration playlist) deletingSong;
              let updatedPlaylist :=
                Playlist.mk (Playlist.id playlist)
                            (Playlist.admin playlist)
                            (Playlist.name playlist)
                            (Playlist.description playlist)
                            (splice1 songIndex (Playlist.songs playlist))
                            newTotal
                            (Playlist.createdAt playlist)
                            (Some now) in
              Some (mkState (songsStorage st)
                      (<[Playlist.id playlist := updatedPlaylist]>
                         (playlistsStorage st)),
                    Ok updatedPlaylist)
          | None => Some (st, Ok playlist)
          end
    | None =>
        Some (st, Err (ErrMessages.couldNotRemove "playlist" playlistId))
    end.

End with_trim.
End Revision2.

(** ** The third revision (the TypeScript of unnamed/part_000)

    Its [createPlaylist] and [updatePlaylist] check the payload and
    catch a failing [insert]; its not-found messages read "because the
    record was not found".  Whether [insert] throws for a given map, key
    and record is a matter of the store: it is the parameter
    [insertThrows]. *)

Module Revision3.
Section with_environment.
Variable trim : string -> string.
Variable insertThrows : gmap string Playlist -> string -> Playlist -> bool.

Definition payloadIncomplete : string :=
  "Payload must include 'name' and 'description' properties.".

Definition couldNotUpdate (recordName id : string) : string :=
  "Couldn't update the " +:+ recordName +:+ " with id=" +:+ id
  +:+ ", because the record was not found.".

Definition createFailed (name : string) : string :=
  "Error inserting the " +:+ name +:+ " playlist. Please try again.".

Definition updateFailed : string :=
  "Error inserting the updated playlist into the playlistsStorage".

Definition createPlaylist (uuid : string) (caller : Principal) (now : N)
    (payload : PlaylistPayload) (st : State)
    : State * Result Playlist string :=
  if negb (truthy (PlaylistPayload.name payload))
     || negb (truthy (PlaylistPayload.description payload)) then
    (st, Err payloadIncomplete)
  else if strict_eq (PlaylistPayload.name payload) "" then
    (st, Err (ErrMessages.fieldCannotBeEmpty "Playlist name"))
  else if strict_eq (PlaylistPayload.description payload) "" then
    (st, Err (ErrMessages.fieldCannotBeEmpty "Playlist description"))
  else
    let existingPlaylist :=
      List.find (fun playlist =>
                   strict_eq (Playlist.name playlist)
                             (PlaylistPayload.name payload))
                (values (playlistsStorage st)) in
    match existingPlaylist with
    | Some _ => (st, Err (ErrMessages.alreadyExists "Playlist"))
    | None =>
        let playlist :=
          Playlist.mk uuid caller
                      (PlaylistPayload.name payload)
                      (PlaylistPayload.description payload)
                      [] 0 now None in
        if insertThrows (playlistsStorage st) (Playlist.id playlist) playlist
        then (st, Err (createFailed (PlaylistPayload.name payload)))
        else
          (mkState (songsStorage st)
                   (<[Playlist.id playlist := playlist]>
                      (playlistsStorage st)),
           Ok playlist)
    end.

Definition updatePlaylist (caller : Principal) (now : N) (id : string)
    (payload : PlaylistPayload) (st : State)
    : State * Result Playlist string :=
  if negb (truthy (PlaylistPayload.name payload))
     || negb (truthy (PlaylistPayload.description payload))
     || strict_eq (trim (PlaylistPayload.name payload)) ""
     || strict_eq (trim (PlaylistPayload.description payload)) "" then
    (st, Err (ErrMessages.fieldCannotBeEmpty "name or description"))
  else
    match playlistsStorage st !! id with
    | Some playlist =>
        if negb (strict_eq (Playlist.admin playlist) caller) then
          (st, Err (ErrMessages.nonAdmin id))
        else
          let updatedPlaylist :=
            Playlist.mk (Playlist.id playlist)
                        (Playlist.admin playlist)
                        (PlaylistPayload.name payload)
                        (PlaylistPayload.description payload)
                        (Playlist.songs playlist)
                        (Playlist.totalDuration playlist)
                        (Playlist.createdAt playlist)
                        (Some now) in
          if insertThrows (playlistsStorage st) (Playlist.id playlist)
                          updatedPlaylist
          then (st, Err updateFailed)
          else
            (mkState (songsStorage st)
                     (<[Playlist.id playlist := updatedPlaylist]>
                        (playlistsStorage st)),
             Ok updatedPlaylist)
    | None => (st, Err (couldNotUpdate "playlist" id))
    end.

End with_environment.
End Revision3.

(** [trim] on strings of ASCII characters, for the examples: it strips
    tab, line feed, vertical tab, form feed, carriage return and space
    from both ends (the JavaScript method strips some characters
    outside ASCII as well). *)
Definition isSpace (c : Ascii.ascii) : bool :=
  let n := Ascii.nat_of_ascii c in
  ((n =? 32) || ((9 <=? n) && (n <=? 13)))%nat.

Fixpoint dropSpaces (l : list Ascii.ascii) : list Ascii.ascii :=
  match l with
  | [] => []
  | c :: rest => if isSpace c then dropSpaces rest else l
  end.

Definition trimAscii (s : string) : string :=
  String.string_of_list_ascii
    (rev (dropSpaces (rev (dropSpaces (String.list_ascii_of_string s))))).

(** ** State predicates *)

(** The loop touches [songs] and [totalDuration] only. *)
Definition same_header (p q : Playlist) : Prop :=
  Playlist.id q = Playlist.id p
  ∧ Playlist.admin q = Playlist.admin p
  ∧ Playlist.name q = Playlist.name p
  ∧ Playlist.description q = Playlist.description p
  ∧ Playlist.createdAt q = Playlist.createdAt p
  ∧ Playlist.updatedAt q = Playlist.updatedAt p.

(** What holds of a stored playlist: it is stored under its own id,
    its members are pairwise different, and each is in the catalogue. *)
Definition playlist_ok (songs : gmap string Song) (key : string)
    (p : Playlist) : Prop :=
  Playlist.id p = key
  ∧ NoDup (Playlist.songs p)
  ∧ ∀ x, x ∈ Playlist.songs p -> is_Some (songs !! x).

Record well_formed (st : State) : Prop := WellFormed {
  wf_song_keys : songsStorage st !! "" = None;
  wf_playlist_keys : playlistsStorage st !! "" = None;
  wf_playlists : map_Forall (playlist_ok (songsStorage st))
                            (playlistsStorage st)
}.

(** The durations of those ids of a [songs] list that are in the
    catalogue, and their sum. *)
Definition memberDurations (songs : gmap string Song) (ids : list string)
    : list Z :=
  omap (fun id => Song.duration <$> songs !! id) ids.

Definition sumDurations (songs : gmap string Song) (ids : list string) : Z :=
  foldr Z.add 0 (memberDurations songs ids).

Definition duration_invariant (st : State) : Prop :=
  ∀ id p, playlistsStorage st !! id = Some p ->
          Playlist.totalDuration p
          = sumDurations (songsStorage st) (Playlist.songs p).

(** Calls that keep catalogue durations non-negative and fixed: an
    upload carries a non-negative duration and an identifier not in use,
    and [updateSong] does not change the duration of the song. *)
Definition duration_safe (st : State) (c : Call) : bool :=
  uuid_ok c &&
  match c with
  | UploadSong uuid _ payload =>
      (0 <=? SongPayload.duration payload)
      && negb (bool_decide (is_Some (songsStorage st !! uuid)))
  | UpdateSong id payload =>
      match songsStorage st !! id with
      | Some song =>
          bool_decide (SongPayload.duration payload = Song.duration song)
      | None => true
      end
  | _ => true
  end.

(** A state is sound for durations when it is well formed, no catalogue
    duration is negative and every total is the sum over its members. *)
Record duration_sound (st : State) : Prop := DurationSound {
  ds_well_formed : well_formed st;
  ds_nonneg : ∀ k song, songsStorage st !! k = Some song ->
                        0 ≤ Song.duration song;
  ds_total : duration_invariant st
}.

(** Which playlist a call is addressed to, and on whose behalf. *)
Definition addressed (c : Call) : option (string * Principal) :=
  match c with
  | UpdatePlaylist caller _ id _ => Some (id, caller)
  | AddSongsToPlaylist caller _ id _ => Some (id, caller)
  | DeletePlaylist caller id => Some (id, caller)
  | DeleteSongFromPlaylist caller _ id _ => Some (id, caller)
  | _ => None
  end.

(** The identifier a call stores a new playlist under. *)
Definition creates (c : Call) : option string :=
  match c with
  | CreatePlaylist uuid _ _ _ => Some uuid
  | _ => None
  end.

Definition writes_catalogue (c : Call) : bool :=
  match c with
  | UploadSong _ _ _ | UpdateSong _ _ => true
  | _ => false
  end.

Definition not_updateSong (c : Call) : bool :=
  match c with
  | UpdateSong _ _ => false
  | _ => true
  end.

Definition not_updatePlaylist (c : Call) : bool :=
  match c with
  | UpdatePlaylist _ _ _ _ => false
  | _ => true
  end.

(** No two stored songs share both [fileName] and [title]. *)
Definition catalogue_unique (st : State) : Prop :=
  ∀ k1 k2 s1 s2,
    songsStorage st !! k1 = Some s1 -> songsStorage st !! k2 = Some s2 ->
    Song.fileName s1 = Song.fileName s2 -> Song.title s1 = Song.title s2 ->
    k1 = k2.

(** No two stored playlists share their [name]. *)
Definition names_unique (st : State) : Prop :=
  ∀ k1 k2 p1 p2,
    playlistsStorage st !! k1 = Some p1 ->
    playlistsStorage st !! k2 = Some p2 ->
    Playlist.name p1 = Playlist.name p2 -> k1 = k2.

(** Every song is stored under its own [id]. *)
Definition songs_keyed (st : State) : Prop :=
  ∀ k song, songsStorage st !! k = Some song -> Song.id song = k.

(** ** The running example

    Three songs [a] (120 s), [b] (200 s) and [c] (45 s), and a playlist
    [p] of [alice] that holds [a] and [b]. *)

Definition payloadA : SongPayload :=
  SongPayload.mk "a.mp4" "audio/mp4" "Song A" ["x"] "rock" 120 "2020".
Definition payloadB : SongPayload :=
  SongPayload.mk "b.mp4" "audio/mp4" "Song B" ["y"] "pop" 200 "2021".
Definition payloadC : SongPayload :=
  SongPayload.mk "c.mp4" "audio/mp4" "Song C" ["z"] "jazz" 45 "2022".
Definition payloadP : PlaylistPayload := PlaylistPayload.mk "Mix" "My mix".

Definition songC : Song :=
  Song.mk "c" "c.mp4" "audio/mp4" "Song C" ["z"] "jazz" 45 "2022" 3.

Definition demo_calls : list Call :=
  [ UploadSong "a" 1 payloadA;
    UploadSong "b" 2 payloadB;
    UploadSong "c" 3 payloadC;
    CreatePlaylist "p" "alice" 4 payloadP;
    AddSongsToPlaylist "alice" 5 "p" ["a"; "b"] ].

Definition demo : State := run demo_calls init.

Definition demo_playlist : Playlist :=
  Playlist.mk "p" "alice" "Mix" "My mix" ["a"; "b"] 320 4 (Some 5%N).

(** A run in which song [n] has a negative duration, followed by the
    removal of the other member of the playlist. *)
Definition payloadNeg : SongPayload :=
  SongPayload.mk "n.mp4" "audio/mp4" "Song N" ["x"] "rock" (-5) "2020".
Definition payloadPos : SongPayload :=
  SongPayload.mk "m.mp4" "audio/mp4" "Song M" ["y"] "pop" 3 "2021".

Definition clamp_calls : list Call :=
  [ UploadSong "n" 1 payloadNeg;
    UploadSong "m" 2 payloadPos;
    CreatePlaylist "p" "alice" 3 payloadP;
    AddSongsToPlaylist "alice" 4 "p" ["n"; "m"] ].

Definition clamp_before : State := run clamp_calls init.
Definition clamp_after : State :=
  exec (DeleteSongFromPlaylist "alice" 5 "p" "m") clamp_before.

(** A store whose playlist lists an id, [gone], that is not in the
    catalogue.  No sequence of calls of this revision leads here; the
    methods handle it all the same. *)
Definition dangling : State :=
  mkState
    {["b" := Song.mk "b" "b.mp4" "audio/mp4" "Song B" ["y"] "pop" 200 "2021"
                     2]}
    {["p" := Playlist.mk "p" "alice" "Mix" "My mix" ["gone"; "b"] 200 4
                         None]}.

(** The running example after [updateSong] gave song [a] 500 s. *)
Definition demo_retimed : State :=
  exec (UpdateSong "a" (SongPayload.mk "a.mp4" "audio/mp4" "Song A" ["x"]
                                       "rock" 500 "2020")) demo.

(** * Properties *)

(** ** Lists *)

(** [x ∉ l] for a literal list [l] of literal strings. *)
Ltac literal_notin :=
  simpl; rewrite ?not_elem_of_cons;
  repeat split; first [discriminate | apply not_elem_of_nil].

Section js_arrays.
Implicit Types (l : list string) (x y : string).

Lemma strict_eq_true x y : strict_eq x y = true <-> x = y.
Proof. unfold strict_eq. apply bool_decide_eq_true. Qed.

Lemma strict_eq_false x y : strict_eq x y = false <-> x ≠ y.
Proof. unfold strict_eq. apply bool_decide_eq_false. Qed.

Lemma truthy_true x : truthy x = true <-> x ≠ "".
Proof.
  unfold truthy. rewrite negb_true_iff. apply strict_eq_false.
Qed.

Lemma find_strict_eq_Some l x y :
  List.find (fun id => strict_eq id x) l = Some y -> y = x ∧ x ∈ l.
Proof.
  induction l as [|a l IH]; simpl; [done|].
  destruct (strict_eq a x) eqn:Ha.
  - apply strict_eq_true in Ha. intros Hy. injection Hy as <-.
    rewrite Ha. split; [done | apply list_elem_of_here].
  - intros H. destruct (IH H) as [-> Hin].
    split; [done | by apply list_elem_of_further].
Qed.

Lemma find_strict_eq_None l x :
  List.find (fun id => strict_eq id x) l = None <-> x ∉ l.
Proof.
  induction l as [|a l IH]; simpl.
  - split; [intros _; apply not_elem_of_nil | done].
  - rewrite not_elem_of_cons. destruct (strict_eq a x) eqn:Ha.
    + apply strict_eq_true in Ha. split; [done | intros [? _]; congruence].
    + apply strict_eq_false in Ha. rewrite IH.
      split; [intros ?; split; [congruence | done] | by intros [_ ?]].
Qed.

(** Whether [find] reports a duplicate: it does for a member, unless
    that member is the empty string. *)
Lemma duplicate_found l x :
  from_option truthy false (List.find (fun id => strict_eq id x) l)
  = bool_decide (x ∈ l) && truthy x.
Proof.
  destruct (List.find _ l) as [y|] eqn:Hf; simpl.
  - apply find_strict_eq_Some in Hf as [-> Hin].
    by rewrite bool_decide_eq_true_2.
  - apply find_strict_eq_None in Hf. by rewrite bool_decide_eq_false_2.
Qed.

Lemma findIndex_Some l x i :
  findIndex (fun id => strict_eq id x) l = Some i ->
  l !! i = Some x ∧ x ∉ take i l.
Proof.
  revert i. induction l as [|a l IH]; intros i; simpl; [done|].
  destruct (strict_eq a x) eqn:Ha.
  - apply strict_eq_true in Ha. intros [= <-]. subst. simpl.
    split; [done | apply not_elem_of_nil].
  - apply strict_eq_false in Ha.
    destruct (findIndex _ l) as [j|] eqn:Hj; simpl; [|done].
    intros [= <-]. destruct (IH j eq_refl) as [Hl Ht]. simpl.
    split; [done|]. rewrite not_elem_of_cons. done.
Qed.

Lemma findIndex_None l x :
  findIndex (fun id => strict_eq id x) l = None <-> x ∉ l.
Proof.
  induction l as [|a l IH]; simpl.
  - split; [intros _; apply not_elem_of_nil | done].
  - rewrite not_elem_of_cons. destruct (strict_eq a x) eqn:Ha.
    + apply strict_eq_true in Ha. split; [done | intros [? _]; congruence].
    + apply strict_eq_false in Ha.
      destruct (findIndex _ l) as [j|] eqn:Hj; simpl.
      * split; [done|]. intros [_ Hn]. by apply IH in Hn.
      * split; [|done]. intros _. split; [done | by apply IH].
Qed.

(** In a list without repetition, removing the position of [x] is
    removing [x]. *)
Lemma delete_NoDup_filter l x i :
  NoDup l -> l !! i = Some x -> delete i l = filter (fun y => y ≠ x) l.
Proof.
  revert i. induction l as [|a l IH]; intros i Hnd Hi; [done|].
  apply NoDup_cons in Hnd as [Ha Hnd].
  destruct i as [|i]; simpl in *.
  - injection Hi as ->. rewrite filter_cons_False by (intros Hx; by apply Hx).
    symmetry. clear IH Hnd. induction l as [|b l IH]; [done|].
    apply not_elem_of_cons in Ha as [Hb Ha].
    rewrite filter_cons_True by congruence. by rewrite IH.
  - assert (a ≠ x) as Hax.
    { intros ->. apply Ha. by eapply list_elem_of_lookup_2. }
    rewrite filter_cons_True by done. f_equal. by apply IH.
Qed.
End js_arrays.

(** ** The loop of [addSongsToPlaylist] *)

Section add_loop.
Variable songs : gmap string Song.
Implicit Types (acc : Playlist * bool) (x : string) (l : list string).

(** A round either leaves the pair alone or pushes a catalogued id
    that [find] did not report. *)
Lemma addSong_cases acc x :
  addSong songs acc x = acc ∨
  ∃ song, songs !! x = Some song
          ∧ (x ∉ Playlist.songs acc.1 ∨ x = "")
          ∧ addSong songs acc x
            = (pushSong acc.1 x (Song.duration song), true).
Proof.
  unfold addSong. destruct (songs !! x) as [song|]; [|by left].
  rewrite duplicate_found.
  destruct (bool_decide (x ∈ Playlist.songs acc.1)) eqn:Hin; simpl.
  - destruct (truthy x) eqn:Ht; [by left|].
    right. exists song. split_and!; [done | right | done].
    unfold truthy in Ht. apply negb_false_iff in Ht.
    by apply strict_eq_true in Ht.
  - right. exists song. apply bool_decide_eq_false in Hin. auto.
Qed.

Lemma addSong_skip_absent acc x :
  songs !! x = None -> addSong songs acc x = acc.
Proof. intros H. unfold addSong. by rewrite H. Qed.

Lemma addSong_skip_member acc x :
  x ∈ Playlist.songs acc.1 -> x ≠ "" -> addSong songs acc x = acc.
Proof.
  intros Hin Hx. unfold addSong. destruct (songs !! x); [|done].
  rewrite duplicate_found, bool_decide_eq_true_2 by done.
  apply truthy_true in Hx. by rewrite Hx.
Qed.

Lemma addSong_push acc x song :
  songs !! x = Some song -> x ∉ Playlist.songs acc.1 ->
  addSong songs acc x = (pushSong acc.1 x (Song.duration song), true).
Proof.
  intros H Hin. unfold addSong. rewrite H, duplicate_found.
  by rewrite bool_decide_eq_false_2.
Qed.

(** Properties kept by every round are kept by the whole loop. *)
Lemma add_loop_ind (P : Playlist * bool -> Prop) :
  (∀ acc x, P acc -> P (addSong songs acc x)) ->
  ∀ l acc, P acc -> P (fold_left (addSong songs) l acc).
Proof.
  intros Hstep l. induction l as [|x l IH]; intros acc Hacc; simpl; auto.
Qed.

Lemma add_loop_header l acc :
  same_header acc.1 (fold_left (addSong songs) l acc).1.
Proof.
  apply (add_loop_ind (fun r => same_header acc.1 r.1)); [|done].
  intros r x Hr. destruct (addSong_cases r x) as [-> | (sg & _ & _ & ->)];
    [done|]. unfold same_header in *. simpl. done.
Qed.

(** Once set, [addFlag] stays set. *)
Lemma add_loop_flag_set l acc :
  acc.2 = true -> (fold_left (addSong songs) l acc).2 = true.
Proof.
  intros Hacc. apply (add_loop_ind (fun r => r.2 = true)); [|done].
  intros r x Hr.
  destruct (addSong_cases r x) as [-> | (sg & _ & _ & ->)]; done.
Qed.

(** With [addFlag] still unset the record is the one the loop
    started from. *)
Lemma add_loop_flag l p :
  (fold_left (addSong songs) l (p, false)).2 = false ->
  fold_left (addSong songs) l (p, false) = (p, false).
Proof.
  revert p. induction l as [|x l IH]; intros p; simpl; [done|].
  destruct (addSong_cases (p, false) x) as [-> | (sg & _ & _ & ->)].
  - apply IH.
  - intros Hf. rewrite add_loop_flag_set in Hf; done.
Qed.
End add_loop.

(** ** Well-formed states *)

Lemma playlist_ok_mono songs songs' key p :
  (∀ x, is_Some (songs !! x) -> is_Some (songs' !! x)) ->
  playlist_ok songs key p -> playlist_ok songs' key p.
Proof. intros Hsub (Hid & Hnd & Hin). split_and!; auto. Qed.

Lemma well_formed_init : well_formed init.
Proof. split; simpl; [done | done | apply map_Forall_empty]. Qed.

(** Storing a song under a non-empty key. *)
Lemma well_formed_insert_song st key song :
  well_formed st -> key ≠ "" ->
  well_formed (mkState (<[key := song]> (songsStorage st))
                       (playlistsStorage st)).
Proof.
  intros [Hs Hp Hall] Hkey. split; simpl.
  - rewrite lookup_insert_ne; done.
  - done.
  - intros k p Hk. eapply playlist_ok_mono; [|by apply Hall].
    intros x Hx. destruct (decide (key = x)) as [->|Hne].
    + rewrite lookup_insert_eq. eauto.
    + by rewrite lookup_insert_ne.
Qed.

(** Storing a playlist that is in order under a non-empty key. *)
Lemma well_formed_insert_playlist st key p :
  well_formed st -> key ≠ "" -> playlist_ok (songsStorage st) key p ->
  well_formed (mkState (songsStorage st)
                       (<[key := p]> (playlistsStorage st))).
Proof.
  intros [Hs Hp Hall] Hkey Hok. split; simpl.
  - done.
  - rewrite lookup_insert_ne; done.
  - by apply map_Forall_insert_2.
Qed.

Lemma well_formed_lookup st key p :
  well_formed st -> playlistsStorage st !! key = Some p ->
  key ≠ "" ∧ playlist_ok (songsStorage st) key p.
Proof.
  intros [Hs Hp Hall] Hk. split; [|by apply Hall].
  intros ->. congruence.
Qed.

(** The loop keeps the members different and catalogued, as no song
    is stored under the empty id. *)
Lemma add_loop_members songs l acc :
  songs !! "" = None ->
  NoDup (Playlist.songs acc.1) ->
  (∀ x, x ∈ Playlist.songs acc.1 -> is_Some (songs !! x)) ->
  let r := fold_left (addSong songs) l acc in
  NoDup (Playlist.songs r.1)
  ∧ ∀ x, x ∈ Playlist.songs r.1 -> is_Some (songs !! x).
Proof.
  intros Hempty Hnd Hin. simpl.
  apply (add_loop_ind songs
           (fun r => NoDup (Playlist.songs r.1)
                     ∧ ∀ x, x ∈ Playlist.songs r.1 -> is_Some (songs !! x)));
    [|done].
  clear Hnd Hin. intros r x [Hnd Hin].
  destruct (addSong_cases songs r x) as [-> | (sg & Hx & Hnew & ->)];
    [done|]. simpl.
  destruct Hnew as [Hnew | ->]; [|congruence].
  split.
  - apply NoDup_app. split_and!; [done | | apply NoDup_singleton].
    intros y Hy ->%list_elem_of_singleton. done.
  - intros y [Hy | ->%list_elem_of_singleton]%elem_of_app; eauto.
Qed.

(** ** Every call keeps the state well formed *)

Lemma well_formed_uploadSong uuid now payload st :
  well_formed st -> uuid ≠ "" ->
  well_formed (uploadSong uuid now payload st).1.
Proof.
  intros Hwf Huuid. unfold uploadSong.
  repeat (case_match; simpl; [done|]).
  by apply well_formed_insert_song.
Qed.

Lemma well_formed_createPlaylist uuid caller now payload st :
  well_formed st -> uuid ≠ "" ->
  well_formed (createPlaylist uuid caller now payload st).1.
Proof.
  intros Hwf Huuid. unfold createPlaylist.
  case_match; simpl; [done|]. case_match; simpl; [done|].
  apply well_formed_insert_playlist; [done | done |].
  split_and!; simpl; [done | apply NoDup_nil_2 |].
  intros x Hx. by apply elem_of_nil in Hx.
Qed.

Lemma well_formed_updatePlaylist caller now id payload st :
  well_formed st -> well_formed (updatePlaylist caller now id payload st).1.
Proof.
  intros Hwf. unfold updatePlaylist.
  destruct (playlistsStorage st !! id) as [p|] eqn:Hp; [|done].
  case_match; simpl; [done|].
  destruct (well_formed_lookup _ _ _ Hwf Hp) as (Hid & Hk & Hnd & Hin).
  rewrite Hk. apply well_formed_insert_playlist; [done | done |].
  by split_and!.
Qed.

Lemma well_formed_addSongsToPlaylist caller now id songs st :
  well_formed st ->
  well_formed (addSongsToPlaylist caller now id songs st).1.
Proof.
  intros Hwf. unfold addSongsToPlaylist.
  case_match; simpl; [done|].
  destruct (playlistsStorage st !! id) as [p|] eqn:Hp; [|done].
  case_match; simpl; [done|].
  destruct (well_formed_lookup _ _ _ Hwf Hp) as (Hid & Hk & Hnd & Hin).
  pose proof (add_loop_header (songsStorage st) songs
                (withUpdatedAt p now, false)) as (Hrid & _).
  pose proof (add_loop_members (songsStorage st) songs
                (withUpdatedAt p now, false) (wf_song_keys _ Hwf) Hnd Hin)
    as [Hnd' Hin'].
  destruct (fold_left _ songs _) as [q flag]. simpl in *.
  destruct flag; simpl; [|done].
  rewrite Hk. apply well_formed_insert_playlist; [done | done |].
  split_and!; [congruence | done | done].
Qed.

Lemma well_formed_updateSong id payload st :
  well_formed st -> well_formed (updateSong id payload st).1.
Proof.
  intros Hwf. unfold updateSong.
  destruct (songsStorage st !! id) as [song|] eqn:Hs; [|done]. simpl.
  apply well_formed_insert_song; [done|].
  intros ->. rewrite (wf_song_keys _ Hwf) in Hs. done.
Qed.

Lemma well_formed_deletePlaylist caller id st :
  well_formed st -> well_formed (deletePlaylist caller id st).1.
Proof.
  intros Hwf. unfold deletePlaylist.
  destruct (playlistsStorage st !! id) as [p|] eqn:Hp; [|done].
  case_match; simpl; [done|].
  destruct Hwf as [Hs Hpk Hall]. split; simpl; [done | |].
  - destruct (decide (id = "")) as [->|Hne].
    + apply lookup_delete_eq.
    + by rewrite lookup_delete_ne.
  - by apply map_Forall_delete.
Qed.

Lemma well_formed_deleteSongFromPlaylist caller now playlistId songId st :
  well_formed st ->
  well_formed (deleteSongFromPlaylist caller now playlistId songId st).1.
Proof.
  intros Hwf. unfold deleteSongFromPlaylist.
  case_match; simpl; [done|]. case_match; simpl; [done|].
  destruct (playlistsStorage st !! playlistId) as [p|] eqn:Hp; [|done].
  case_match; simpl; [done|].
  destruct (findIndex _ _) as [i|] eqn:Hi; simpl; [|done].
  destruct (well_formed_lookup _ _ _ Hwf Hp) as (Hid & Hk & Hnd & Hin).
  rewrite Hk. apply well_formed_insert_playlist; [done | done |].
  split_and!; simpl; [done | |].
  - unfold splice1. eapply sublist_NoDup; [|apply sublist_delete]. done.
  - intros x Hx. apply Hin. by eapply list_elem_of_delete_inv.
Qed.

Lemma well_formed_exec c st :
  well_formed st -> uuid_ok c = true -> well_formed (exec c st).
Proof.
  intros Hwf Hc. destruct c; simpl in *.
  - apply well_formed_uploadSong; [done | by apply truthy_true].
  - apply well_formed_createPlaylist; [done | by apply truthy_true].
  - by apply well_formed_updatePlaylist.
  - by apply well_formed_addSongsToPlaylist.
  - by apply well_formed_updateSong.
  - by apply well_formed_deletePlaylist.
  - by apply well_formed_deleteSongFromPlaylist.
Qed.

Lemma reachable_well_formed st : reachable st -> well_formed st.
Proof.
  induction 1 as [|st c _ IH Hc]; [apply well_formed_init|].
  by apply well_formed_exec.
Qed.

(** ** Reachability of a run *)

Lemma reachable_via_run ok calls st :
  reachable_via ok st -> calls_ok ok calls st = true ->
  reachable_via ok (run calls st).
Proof.
  revert st. induction calls as [|c calls IH]; intros st Hst Hok; [done|].
  simpl in Hok. apply andb_true_iff in Hok as [Hc Hok].
  apply IH; [by apply reach_call | done].
Qed.

Lemma reachable_via_mono (ok ok' : State -> Call -> bool) st :
  (∀ s c, ok s c = true -> ok' s c = true) ->
  reachable_via ok st -> reachable_via ok' st.
Proof.
  intros Himp. induction 1 as [|s c _ IH Hc]; [apply reach_init|].
  apply reach_call; auto.
Qed.

Lemma duration_safe_is_reachable st :
  reachable_via duration_safe st -> reachable st.
Proof.
  apply reachable_via_mono. intros s c Hc. unfold duration_safe in Hc.
  by apply andb_true_iff in Hc as [Hc _].
Qed.

Lemma demo_reachable : reachable demo.
Proof.
  apply reachable_via_run; [apply reach_init | by vm_compute].
Qed.

Lemma demo_lookup : playlistsStorage demo !! "p" = Some demo_playlist.
Proof. by vm_compute. Qed.

Create HintDb demo.
#[local] Hint Resolve demo_reachable demo_lookup : demo.

(** ** Outcomes of the playlist methods *)

Lemma admin_check_passes (p : Playlist) caller :
  Playlist.admin p = caller ->
  negb (strict_eq (Playlist.admin p) caller) = false.
Proof. intros H. apply negb_false_iff. by apply strict_eq_true. Qed.

Lemma admin_check_fails (p : Playlist) caller :
  Playlist.admin p ≠ caller ->
  negb (strict_eq (Playlist.admin p) caller) = true.
Proof. intros H. apply negb_true_iff. by apply strict_eq_false. Qed.

Lemma length_check_passes {A : Type} (l : list A) :
  l ≠ [] -> (length l =? 0)%nat = false.
Proof. intros H. destruct l; [done|]. reflexivity. Qed.

(** What [addSongsToPlaylist] does for the admin, in terms of its loop. *)
Lemma addSongsToPlaylist_admin st caller now id p songs :
  playlistsStorage st !! id = Some p ->
  Playlist.admin p = caller ->
  songs ≠ [] ->
  addSongsToPlaylist caller now id songs st =
    let r := fold_left (addSong (songsStorage st)) songs
                       (withUpdatedAt p now, false) in
    if r.2 then
      (mkState (songsStorage st)
               (<[Playlist.id p := r.1]> (playlistsStorage st)),
       Ok r.1)
    else (st, Err nothingAdded).
Proof.
  intros Hp Hadmin Hsongs. unfold addSongsToPlaylist.
  rewrite length_check_passes, Hp, admin_check_passes by done.
  simpl. destruct (fold_left _ songs _) as [q flag]. by destruct flag.
Qed.

(** The loop does nothing when every candidate is unknown to the
    catalogue or already a member. *)
Lemma add_loop_all_skipped songs l p :
  songs !! "" = None ->
  (∀ x, x ∈ l -> songs !! x = None ∨ x ∈ Playlist.songs p) ->
  fold_left (addSong songs) l (p, false) = (p, false).
Proof.
  intros Hempty. induction l as [|x l IH]; intros Hall; [done|]. simpl.
  assert (addSong songs (p, false) x = (p, false)) as ->.
  { destruct (songs !! x) as [sg|] eqn:Hx.
    - destruct (Hall x) as [Hnone | Hin]; [left | congruence |].
      apply addSong_skip_member; [done|]. intros ->. congruence.
    - by apply addSong_skip_absent. }
  apply IH. intros y Hy. apply Hall. by right.
Qed.

(** What [deleteSongFromPlaylist] does for the admin once both ids
    passed the emptiness checks. *)
Lemma deleteSongFromPlaylist_admin st caller now playlistId songId p :
  playlistId ≠ "" -> songId ≠ "" ->
  playlistsStorage st !! playlistId = Some p ->
  Playlist.admin p = caller ->
  deleteSongFromPlaylist caller now playlistId songId st =
    match findIndex (fun id => strict_eq id songId) (Playlist.songs p) with
    | Some songIndex =>
        let updatedPlaylist :=
          Playlist.mk (Playlist.id p) (Playlist.admin p) (Playlist.name p)
                      (Playlist.description p)
                      (splice1 songIndex (Playlist.songs p))
                      (durationAfterDelete (Playlist.totalDuration p)
                                           (songsStorage st !! songId))
                      (Playlist.createdAt p) (Some now) in
        (mkState (songsStorage st)
                 (<[Playlist.id p := updatedPlaylist]> (playlistsStorage st)),
         Ok updatedPlaylist)
    | None => (st, Ok p)
    end.
Proof.
  intros Hpid Hsid Hp Hadmin. unfold deleteSongFromPlaylist.
  apply strict_eq_false in Hpid, Hsid. rewrite Hpid, Hsid, Hp.
  by rewrite admin_check_passes.
Qed.

(** * Specified behaviour *)

(** C3: in a reachable state, when the admin calls [addSongsToPlaylist]
    with a non-empty list of ids each of which is missing from the
    catalogue or already a member of the playlist, the call returns the
    "nothing added" error and the whole state is the one before the
    call: no store write happens, so the stored playlist keeps its
    [songs], [totalDuration] and [updatedAt]. *)
Theorem addSongs_nothing_added st caller now id p songs :
  reachable st ->
  playlistsStorage st !! id = Some p ->
  Playlist.admin p = caller ->
  songs ≠ [] ->
  (∀ x, x ∈ songs -> songsStorage st !! x = None ∨ x ∈ Playlist.songs p) ->
  addSongsToPlaylist caller now id songs st = (st, Err nothingAdded)
  ∧ playlistsStorage (addSongsToPlaylist caller now id songs st).1 !! id
    = Some p.
Proof.
  intros Hreach Hp Hadmin Hsongs Hall.
  apply reachable_well_formed in Hreach.
  assert (addSongsToPlaylist caller now id songs st = (st, Err nothingAdded))
    as Heq.
  { rewrite (addSongsToPlaylist_admin _ _ _ _ p) by done. simpl.
    rewrite add_loop_all_skipped; [done | apply Hreach | done]. }
  by rewrite Heq.
Qed.

Lemma addSongs_nothing_added_witness :
  reachable demo
  ∧ playlistsStorage demo !! "p" = Some demo_playlist
  ∧ addSongsToPlaylist "alice" 9 "p" ["zz"; "a"] demo
    = (demo, Err nothingAdded).
Proof.
  split_and!; [auto with demo | auto with demo |].
  apply (addSongs_nothing_added demo "alice" 9%N "p" demo_playlist
           ["zz"; "a"]).
  - apply demo_reachable.
  - apply demo_lookup.
  - reflexivity.
  - discriminate.
  - intros x Hx. apply elem_of_cons in Hx as [-> | Hx].
    + left. by vm_compute.
    + apply list_elem_of_singleton in Hx as ->. right. simpl.
      apply list_elem_of_here.
Defined.

(** C7: in a reachable state, when [s1] is in the catalogue and not yet
    a member, [addSongsToPlaylist(id, [s1, s1])] called by the admin
    succeeds, appends [s1] to [songs] once, adds the duration of [s1] to
    [totalDuration] once, stamps [updatedAt], and stores and returns
    that record. *)
Theorem addSongs_same_id_twice st caller now id p s1 song :
  reachable st ->
  playlistsStorage st !! id = Some p ->
  Playlist.admin p = caller ->
  songsStorage st !! s1 = Some song ->
  s1 ∉ Playlist.songs p ->
  let p' :=
    Playlist.mk (Playlist.id p) (Playlist.admin p) (Playlist.name p)
                (Playlist.description p)
                (Playlist.songs p ++ [s1])
                (Playlist.totalDuration p + Song.duration song)
                (Playlist.createdAt p) (Some now) in
  addSongsToPlaylist caller now id [s1; s1] st
  = (mkState (songsStorage st) (<[id := p']> (playlistsStorage st)), Ok p').
Proof.
  intros Hreach Hp Hadmin Hs1 Hnew p'.
  apply reachable_well_formed in Hreach.
  destruct (well_formed_lookup _ _ _ Hreach Hp) as (_ & Hid & _).
  rewrite (addSongsToPlaylist_admin _ _ _ _ p) by done. simpl.
  rewrite (addSong_push _ (withUpdatedAt p now, false) s1 song Hs1 Hnew).
  rewrite addSong_skip_member; simpl.
  - by rewrite Hid.
  - apply elem_of_app. right. apply list_elem_of_here.
  - intros ->. rewrite (wf_song_keys _ Hreach) in Hs1. done.
Qed.

Lemma addSongs_same_id_twice_witness :
  reachable demo
  ∧ playlistsStorage demo !! "p" = Some demo_playlist
  ∧ (addSongsToPlaylist "alice" 9 "p" ["c"; "c"] demo).2
    = Ok (Playlist.mk "p" "alice" "Mix" "My mix" ["a"; "b"; "c"] 365 4
                      (Some 9%N)).
Proof.
  split_and!; [auto with demo | auto with demo |].
  rewrite (addSongs_same_id_twice demo "alice" 9%N "p" demo_playlist "c"
             songC).
  - reflexivity.
  - apply demo_reachable.
  - apply demo_lookup.
  - reflexivity.
  - by vm_compute.
  - literal_notin.
Defined.

(** C8: in a reachable state, [deleteSongFromPlaylist] called by the
    admin with a non-empty [songId] that is not in the playlist's
    [songs] succeeds, returns the stored record as it is, [updatedAt]
    included, and leaves the state untouched. *)
Theorem deleteSong_absent_is_noop st caller now id p songId :
  reachable st ->
  playlistsStorage st !! id = Some p ->
  Playlist.admin p = caller ->
  songId ≠ "" ->
  songId ∉ Playlist.songs p ->
  deleteSongFromPlaylist caller now id songId st = (st, Ok p).
Proof.
  intros Hreach Hp Hadmin Hsid Hnotin.
  apply reachable_well_formed in Hreach.
  destruct (well_formed_lookup _ _ _ Hreach Hp) as (Hid & _).
  rewrite (deleteSongFromPlaylist_admin _ _ _ _ _ p) by done.
  apply findIndex_None in Hnotin. by rewrite Hnotin.
Qed.

Lemma deleteSong_absent_is_noop_witness :
  reachable demo
  ∧ playlistsStorage demo !! "p" = Some demo_playlist
  ∧ deleteSongFromPlaylist "alice" 9 "p" "c" demo = (demo, Ok demo_playlist).
Proof.
  split_and!; [auto with demo | auto with demo |].
  apply (deleteSong_absent_is_noop demo "alice" 9%N "p" demo_playlist "c").
  - apply demo_reachable.
  - apply demo_lookup.
  - reflexivity.
  - discriminate.
  - literal_notin.
Defined.

Lemma durationAfterDelete_subtract total song :
  0 ≤ total - Song.duration song ->
  durationAfterDelete total (Some song) = total - Song.duration song.
Proof.
  intros H. unfold durationAfterDelete.
  by rewrite (proj2 (Z.leb_le _ _) H).
Qed.

Lemma durationAfterDelete_reset total deletingSong :
  (deletingSong = None
   ∨ ∃ song, deletingSong = Some song ∧ total - Song.duration song < 0) ->
  durationAfterDelete total deletingSong = 0.
Proof.
  intros [-> | (song & -> & H)]; [done|]. unfold durationAfterDelete.
  by rewrite (proj2 (Z.leb_gt _ _) H).
Qed.

(** The conditions under which [deleteSongFromPlaylist] is examined
    below hold of every stored playlist and each of its members in a
    reachable state. *)
Lemma reachable_member_conditions st id p songId :
  reachable st ->
  playlistsStorage st !! id = Some p ->
  songId ∈ Playlist.songs p ->
  id ≠ "" ∧ songId ≠ "" ∧ Playlist.id p = id ∧ NoDup (Playlist.songs p).
Proof.
  intros Hreach Hp Hin. apply reachable_well_formed in Hreach.
  destruct (well_formed_lookup _ _ _ Hreach Hp) as (Hid & Hk & Hnd & Hmem).
  split_and!; try done.
  intros ->. destruct (Hmem "" Hin) as [sg Hsg].
  rewrite (wf_song_keys _ Hreach) in Hsg. done.
Qed.

(** C4: for a playlist stored under its own non-empty id, with
    pairwise different members, and a non-empty [songId] among them (as
    is the case in every reachable state), whatever the catalogue holds,
    [deleteSongFromPlaylist] called by the admin succeeds with a record
    [p'] that it also stores under the playlist id: [songId] is gone
    from [songs], the other members keep their order, [updatedAt] is the
    call time and the remaining header fields are those of the stored
    record.  Its [totalDuration] is the old one minus the song's
    duration when the song is in the catalogue and that difference is
    not negative, and exactly 0 otherwise: when the song is no longer in
    the catalogue, or the difference is negative. *)
Theorem deleteSong_member st caller now id p songId :
  playlistsStorage st !! id = Some p ->
  id ≠ "" ->
  songId ≠ "" ->
  Playlist.id p = id ->
  NoDup (Playlist.songs p) ->
  Playlist.admin p = caller ->
  songId ∈ Playlist.songs p ->
  ∃ p',
    deleteSongFromPlaylist caller now id songId st
    = (mkState (songsStorage st) (<[id := p']> (playlistsStorage st)), Ok p')
    ∧ Playlist.songs p' = filter (fun x => x ≠ songId) (Playlist.songs p)
    ∧ (songId ∉ Playlist.songs p')
    ∧ Playlist.updatedAt p' = Some now
    ∧ (Playlist.id p' = id
       ∧ Playlist.admin p' = Playlist.admin p
       ∧ Playlist.name p' = Playlist.name p
       ∧ Playlist.description p' = Playlist.description p
       ∧ Playlist.createdAt p' = Playlist.createdAt p)
    ∧ (∀ song, songsStorage st !! songId = Some song ->
               0 ≤ Playlist.totalDuration p - Song.duration song ->
               Playlist.totalDuration p'
               = Playlist.totalDuration p - Song.duration song)
    ∧ ((songsStorage st !! songId = None
        ∨ ∃ song, songsStorage st !! songId = Some song
                  ∧ Playlist.totalDuration p - Song.duration song < 0) ->
       Playlist.totalDuration p' = 0).
Proof.
  intros Hp Hid Hsid Hk Hnd Hadmin Hin.
  rewrite (deleteSongFromPlaylist_admin _ _ _ _ _ p) by done.
  destruct (findIndex _ _) as [i|] eqn:Hi;
    [|by apply findIndex_None in Hi].
  apply findIndex_Some in Hi as [Hi _].
  eexists. split; [by rewrite Hk|]. simpl.
  unfold splice1. rewrite (delete_NoDup_filter _ songId) by done.
  split_and!; try done.
  - rewrite list_elem_of_filter. intros [Hne _]. by apply Hne.
  - intros song -> Hge. by apply durationAfterDelete_subtract.
  - apply durationAfterDelete_reset.
Qed.

(** The witness takes both ways to the total: a song that is in the
    catalogue, and one that is not. *)
Lemma deleteSong_member_witness :
  (playlistsStorage demo !! "p" = Some demo_playlist
   ∧ ∃ p',
       deleteSongFromPlaylist "alice" 9 "p" "a" demo
       = (mkState (songsStorage demo) (<["p" := p']> (playlistsStorage demo)),
          Ok p')
       ∧ Playlist.songs p' = ["b"]
       ∧ Playlist.totalDuration p' = 200)
  ∧ (songsStorage dangling !! "gone" = None
     ∧ ∃ p',
         deleteSongFromPlaylist "alice" 9 "p" "gone" dangling
         = (mkState (songsStorage dangling)
              (<["p" := p']> (playlistsStorage dangling)),
            Ok p')
         ∧ Playlist.songs p' = ["b"]
         ∧ Playlist.totalDuration p' = 0).
Proof.
  split.
  - split; [auto with demo|].
    destruct (deleteSong_member demo "alice" 9%N "p" demo_playlist "a")
      as (p' & Heq & Hsongs & _ & _ & _ & Hsub & _).
    + apply demo_lookup.
    + discriminate.
    + discriminate.
    + reflexivity.
    + simpl. apply NoDup_cons. split; [literal_notin|].
      apply NoDup_singleton.
    + reflexivity.
    + simpl. apply list_elem_of_here.
    + exists p'. split_and!; [done | by rewrite Hsongs |].
      rewrite (Hsub (Song.mk "a" "a.mp4" "audio/mp4" "Song A" ["x"] "rock"
                             120 "2020" 1)); [done | by vm_compute | done].
  - assert (songsStorage dangling !! "gone" = None) as Hgone
      by (by vm_compute).
    split; [done|].
    destruct (deleteSong_member dangling "alice" 9%N "p"
                (Playlist.mk "p" "alice" "Mix" "My mix" ["gone"; "b"] 200 4
                             None) "gone")
      as (p' & Heq & Hsongs & _ & _ & _ & _ & Hreset).
    + by vm_compute.
    + discriminate.
    + discriminate.
    + reflexivity.
    + simpl. apply NoDup_cons. split; [literal_notin|].
      apply NoDup_singleton.
    + reflexivity.
    + simpl. apply list_elem_of_here.
    + exists p'. split_and!; [done | by rewrite Hsongs |].
      apply Hreset. by left.
Defined.

(** C9: in every reachable state the [songs] list of every stored
    playlist is free of duplicates, and it still is in the state after
    any further call. *)
Theorem playlist_songs_no_duplicates st c :
  reachable st ->
  uuid_ok c = true ->
  (∀ id p, playlistsStorage st !! id = Some p -> NoDup (Playlist.songs p))
  ∧ (∀ id p, playlistsStorage (exec c st) !! id = Some p ->
             NoDup (Playlist.songs p)).
Proof.
  intros Hreach Hc.
  assert (∀ s, reachable s -> ∀ id p,
             playlistsStorage s !! id = Some p -> NoDup (Playlist.songs p))
    as Hall.
  { intros s Hs id p Hp. apply reachable_well_formed in Hs.
    by destruct (well_formed_lookup _ _ _ Hs Hp) as (_ & _ & Hnd & _). }
  split; apply Hall; [done|]. by apply reach_call.
Qed.

Lemma playlist_songs_no_duplicates_witness :
  reachable demo
  ∧ uuid_ok (AddSongsToPlaylist "alice" 9 "p" ["c"; "a"; "c"]) = true
  ∧ NoDup (Playlist.songs demo_playlist)
  ∧ ∀ id p,
      playlistsStorage
        (exec (AddSongsToPlaylist "alice" 9 "p" ["c"; "a"; "c"]) demo) !! id
      = Some p ->
      NoDup (Playlist.songs p).
Proof.
  destruct (playlist_songs_no_duplicates demo
              (AddSongsToPlaylist "alice" 9 "p" ["c"; "a"; "c"]))
    as [Hbefore Hafter].
  - apply demo_reachable.
  - reflexivity.
  - split_and!; [apply demo_reachable | reflexivity | | done].
    apply (Hbefore "p"). apply demo_lookup.
Defined.

(** The non-empty identifiers matter here: [find] hands back the
    matching element and the loop tests that element for truthiness, so
    a member that is the empty string is not recognised.  Were a song
    stored under the empty id, a second round would list it again. *)
Lemma empty_id_not_recognised :
  fold_left (addSong {["" := songC]}) [""; ""] (demo_playlist, false)
  = (Playlist.mk "p" "alice" "Mix" "My mix" ["a"; "b"; ""; ""] 410 4
                 (Some 5%N),
     true).
Proof. by vm_compute. Qed.

Lemma getPlaylist_stored st id p :
  id ≠ "" -> playlistsStorage st !! id = Some p -> getPlaylist id st = Ok p.
Proof.
  intros Hid Hp. unfold getPlaylist.
  apply strict_eq_false in Hid. by rewrite Hid, Hp.
Qed.

(** C10: in a reachable state, when [updatePlaylist],
    [addSongsToPlaylist] or [deleteSongFromPlaylist] returns [Ok r], the
    playlist store of the resulting state holds [r] under the playlist
    id, and [getPlaylist] on that id returns [r]. *)
Theorem returned_record_is_stored st caller now id st' r :
  reachable st ->
  (∃ payload, updatePlaylist caller now id payload st = (st', Ok r))
  ∨ (∃ songs, addSongsToPlaylist caller now id songs st = (st', Ok r))
  ∨ (∃ songId,
       deleteSongFromPlaylist caller now id songId st = (st', Ok r)) ->
  playlistsStorage st' !! id = Some r ∧ getPlaylist id st' = Ok r.
Proof.
  intros Hreach Hcall. apply reachable_well_formed in Hreach.
  assert (playlistsStorage st' !! id = Some r ∧ id ≠ "") as [Hr Hid];
    [|by eauto using getPlaylist_stored].
  destruct Hcall as [[payload H] | [[songs H] | [songId H]]].
  - unfold updatePlaylist in H.
    destruct (playlistsStorage st !! id) as [p|] eqn:Hp; [|done].
    destruct (well_formed_lookup _ _ _ Hreach Hp) as (Hid & Hk & _).
    case_match; [done|]. injection H as <- <-. simpl.
    by rewrite Hk, lookup_insert_eq.
  - unfold addSongsToPlaylist in H. case_match; [done|].
    destruct (playlistsStorage st !! id) as [p|] eqn:Hp; [|done].
    destruct (well_formed_lookup _ _ _ Hreach Hp) as (Hid & Hk & _).
    case_match; [done|].
    destruct (fold_left _ songs _) as [q flag]. destruct flag; [|done].
    injection H as <- <-. simpl. by rewrite Hk, lookup_insert_eq.
  - unfold deleteSongFromPlaylist in H.
    case_match; [done|]. case_match; [done|].
    destruct (playlistsStorage st !! id) as [p|] eqn:Hp; [|done].
    destruct (well_formed_lookup _ _ _ Hreach Hp) as (Hid & Hk & _).
    case_match; [done|].
    destruct (findIndex _ _) as [i|]; injection H as <- <-; simpl.
    + by rewrite Hk, lookup_insert_eq.
    + done.
Qed.

Lemma returned_record_is_stored_witness :
  reachable demo
  ∧ getPlaylist "p"
      (updatePlaylist "alice" 9 "p" (PlaylistPayload.mk "Road" "Trip") demo).1
    = Ok (Playlist.mk "p" "alice" "Road" "Trip" ["a"; "b"] 320 4 (Some 9%N)).
Proof.
  split; [apply demo_reachable|].
  apply (returned_record_is_stored demo "alice" 9%N "p").
  - apply demo_reachable.
  - left. exists (PlaylistPayload.mk "Road" "Trip"). by vm_compute.
Defined.

(** C2, as the code has it: in a reachable state, for a stored playlist
    and a caller that is not its admin, [updatePlaylist] and
    [deletePlaylist] return the not-the-admin error;
    [addSongsToPlaylist] does so when the song list is not empty and
    [deleteSongFromPlaylist] does when the song id is not empty (the
    emptiness checks come first and answer with their own error).  In
    every one of these calls the state is left as it was. *)
Theorem non_admin_rejected st id p caller now :
  reachable st ->
  playlistsStorage st !! id = Some p ->
  Playlist.admin p ≠ caller ->
  (∀ payload,
     updatePlaylist caller now id payload st
     = (st, Err (ErrMessages.nonAdmin id)))
  ∧ (∀ songs,
       songs ≠ [] ->
       addSongsToPlaylist caller now id songs st
       = (st, Err (ErrMessages.nonAdmin id)))
  ∧ deletePlaylist caller id st = (st, Err (ErrMessages.nonAdmin id))
  ∧ (∀ songId,
       songId ≠ "" ->
       deleteSongFromPlaylist caller now id songId st
       = (st, Err (ErrMessages.nonAdmin id)))
  ∧ (∀ songs, (addSongsToPlaylist caller now id songs st).1 = st)
  ∧ (∀ songId, (deleteSongFromPlaylist caller now id songId st).1 = st).
Proof.
  intros Hreach Hp Hadmin. apply reachable_well_formed in Hreach.
  destruct (well_formed_lookup _ _ _ Hreach Hp) as (Hid & _).
  apply admin_check_fails in Hadmin. apply strict_eq_false in Hid.
  split_and!.
  - intros payload. unfold updatePlaylist. by rewrite Hp, Hadmin.
  - intros songs Hsongs. unfold addSongsToPlaylist.
    by rewrite length_check_passes, Hp, Hadmin.
  - unfold deletePlaylist. by rewrite Hp, Hadmin.
  - intros songId Hsid. unfold deleteSongFromPlaylist.
    apply strict_eq_false in Hsid. by rewrite Hid, Hsid, Hp, Hadmin.
  - intros songs. unfold addSongsToPlaylist.
    case_match; [done|]. by rewrite Hp, Hadmin.
  - intros songId. unfold deleteSongFromPlaylist.
    rewrite Hid. case_match; [done|]. by rewrite Hp, Hadmin.
Qed.

Lemma non_admin_rejected_witness :
  reachable demo
  ∧ playlistsStorage demo !! "p" = Some demo_playlist
  ∧ Playlist.admin demo_playlist ≠ "bob"
  ∧ deletePlaylist "bob" "p" demo = (demo, Err (ErrMessages.nonAdmin "p"))
  ∧ addSongsToPlaylist "bob" 9 "p" ["c"] demo
    = (demo, Err (ErrMessages.nonAdmin "p")).
Proof.
  destruct (non_admin_rejected demo "p" demo_playlist "bob" 9%N)
    as (_ & Hadd & Hdel & _).
  - apply demo_reachable.
  - apply demo_lookup.
  - discriminate.
  - split_and!; [apply demo_reachable | apply demo_lookup | discriminate
                | done | by apply Hadd].
Defined.

(** C2 as stated fails: with an empty song list a caller who is not the
    admin gets the empty-list error of [addSongsToPlaylist], not the
    not-the-admin error. *)
Lemma non_admin_empty_list_counterexample :
  reachable demo
  ∧ playlistsStorage demo !! "p" = Some demo_playlist
  ∧ Playlist.admin demo_playlist ≠ "bob"
  ∧ (addSongsToPlaylist "bob" 9 "p" [] demo).2
    = Err "Song list cannot be empty."
  ∧ (addSongsToPlaylist "bob" 9 "p" [] demo).2
    ≠ Err (ErrMessages.nonAdmin "p").
Proof.
  split_and!; [apply demo_reachable | apply demo_lookup | discriminate
              | reflexivity | discriminate].
Qed.

(** C5, as the code has it: [updatePlaylist] checks neither field of
    the payload.  In a reachable state, for a stored playlist, its admin
    as caller and a payload whose name is not the empty string (the
    description may be anything), it replaces [name] and [description],
    sets [updatedAt] to the call time, stores the record under the
    playlist id and returns it. *)
Theorem updatePlaylist_admin st caller now id payload p :
  reachable st ->
  playlistsStorage st !! id = Some p ->
  Playlist.admin p = caller ->
  PlaylistPayload.name payload ≠ "" ->
  let p' :=
    Playlist.mk id (Playlist.admin p)
                (PlaylistPayload.name payload)
                (PlaylistPayload.description payload)
                (Playlist.songs p) (Playlist.totalDuration p)
                (Playlist.createdAt p) (Some now) in
  updatePlaylist caller now id payload st
  = (mkState (songsStorage st) (<[id := p']> (playlistsStorage st)), Ok p').
Proof.
  intros Hreach Hp Hadmin _ p'. apply reachable_well_formed in Hreach.
  destruct (well_formed_lookup _ _ _ Hreach Hp) as (_ & Hk & _).
  unfold updatePlaylist. rewrite Hp, admin_check_passes by done.
  subst p'. by rewrite Hk.
Qed.

Lemma updatePlaylist_admin_witness :
  reachable demo
  ∧ playlistsStorage demo !! "p" = Some demo_playlist
  ∧ (updatePlaylist "alice" 9 "p" (PlaylistPayload.mk "Road" "   ") demo).2
    = Ok (Playlist.mk "p" "alice" "Road" "   " ["a"; "b"] 320 4 (Some 9%N)).
Proof.
  split_and!; [auto with demo | auto with demo |].
  rewrite (updatePlaylist_admin demo "alice" 9%N "p"
             (PlaylistPayload.mk "Road" "   ") demo_playlist).
  - reflexivity.
  - apply demo_reachable.
  - apply demo_lookup.
  - reflexivity.
  - discriminate.
Defined.

(** C5 as stated fails: a payload with an empty description is
    accepted, and the empty description is stored. *)
Lemma updatePlaylist_blank_description_counterexample :
  reachable demo
  ∧ playlistsStorage demo !! "p" = Some demo_playlist
  ∧ (updatePlaylist "alice" 9 "p" (PlaylistPayload.mk "Road" "") demo).2
    = Ok (Playlist.mk "p" "alice" "Road" "" ["a"; "b"] 320 4 (Some 9%N))
  ∧ getPlaylist "p"
      (updatePlaylist "alice" 9 "p" (PlaylistPayload.mk "Road" "") demo).1
    = Ok (Playlist.mk "p" "alice" "Road" "" ["a"; "b"] 320 4 (Some 9%N)).
Proof.
  split_and!; [apply demo_reachable | apply demo_lookup | by vm_compute
              | by vm_compute].
Qed.

Lemma find_none_iff {A : Type} (f : A -> bool) (l : list A) :
  List.find f l = None <-> ∀ x, x ∈ l -> f x = false.
Proof.
  split.
  - intros H x Hx. apply (find_none f l H). by apply list_elem_of_In.
  - intros H. destruct (List.find f l) as [x|] eqn:Hf; [|done].
    apply find_some in Hf as [Hx Hfx]. apply list_elem_of_In in Hx.
    rewrite (H x Hx) in Hfx. done.
Qed.

Lemma elem_of_values {V : Type} (m : gmap string V) (v : V) :
  v ∈ values m <-> ∃ k, m !! k = Some v.
Proof.
  unfold values. rewrite list_elem_of_fmap. split.
  - intros ([k v'] & -> & Hkv). exists k. by apply elem_of_map_to_list.
  - intros [k Hk]. exists (k, v). split; [done|].
    by apply elem_of_map_to_list.
Qed.

(** C6, as the code has it: [uploadSong] rejects a payload whose
    [fileName], [mimeType] or [title] is the empty string, or whose
    [singers] is empty, with the error of the first such field in the
    order fileName, mimeType, title, singers, and leaves the state as it
    was.  No trimming is done: for a payload whose three texts are not
    the empty string (whitespace-only ones included) and whose [singers]
    is not empty, none of these four errors is returned. *)
Theorem uploadSong_validation uuid now payload st :
  let fileName := SongPayload.fileName payload in
  let mimeType := SongPayload.mimeType payload in
  let title := SongPayload.title payload in
  let singers := SongPayload.singers payload in
  (fileName = "" ->
   uploadSong uuid now payload st = (st, Err "File name cannot be empty."))
  ∧ (fileName ≠ "" -> mimeType = "" ->
     uploadSong uuid now payload st = (st, Err "File type cannot be empty."))
  ∧ (fileName ≠ "" -> mimeType ≠ "" -> title = "" ->
     uploadSong uuid now payload st = (st, Err "Title cannot be empty."))
  ∧ (fileName ≠ "" -> mimeType ≠ "" -> title ≠ "" -> singers = [] ->
     uploadSong uuid now payload st
     = (st, Err "You must provide singer(s)."))
  ∧ (fileName ≠ "" -> mimeType ≠ "" -> title ≠ "" -> singers ≠ [] ->
     (uploadSong uuid now payload st).2 ≠ Err "File name cannot be empty."
     ∧ (uploadSong uuid now payload st).2 ≠ Err "File type cannot be empty."
     ∧ (uploadSong uuid now payload st).2 ≠ Err "Title cannot be empty."
     ∧ (uploadSong uuid now payload st).2
       ≠ Err "You must provide singer(s).").
Proof.
  intros fileName mimeType title singers. subst fileName mimeType title singers.
  unfold uploadSong. split_and!.
  - intros ->. done.
  - intros Hf%strict_eq_false ->. by rewrite Hf.
  - intros Hf%strict_eq_false Hm%strict_eq_false ->. by rewrite Hf, Hm.
  - intros Hf%strict_eq_false Hm%strict_eq_false Ht%strict_eq_false ->.
    by rewrite Hf, Hm, Ht.
  - intros Hf%strict_eq_false Hm%strict_eq_false Ht%strict_eq_false Hs.
    rewrite Hf, Hm, Ht, length_check_passes by done.
    destruct (List.find _ _); simpl; split_and!; discriminate.
Qed.

Lemma uploadSong_validation_witness :
  uploadSong "u" 9 (SongPayload.mk "a.mp4" "" "" [] "rock" 120 "2020") demo
  = (demo, Err "File type cannot be empty.")
  ∧ (uploadSong "u" 9 (SongPayload.mk " " "  " "   " [""] "" 0 "") demo).2
    ≠ Err "File name cannot be empty.".
Proof.
  split.
  - apply (uploadSong_validation "u" 9%N
             (SongPayload.mk "a.mp4" "" "" [] "rock" 120 "2020") demo).
    + discriminate.
    + reflexivity.
  - destruct (uploadSong_validation "u" 9%N
                (SongPayload.mk " " "  " "   " [""] "" 0 "") demo)
      as (_ & _ & _ & _ & H).
    apply H; discriminate.
Defined.

(** C6 as stated fails: a file name made of one space is not trimmed,
    so the payload is accepted and stored. *)
Lemma uploadSong_blank_fileName_counterexample :
  uploadSong "u" 9 (SongPayload.mk " " "audio/mp4" "Song" ["x"] "rock" 120
                                   "2020") init
  = (mkState {["u" := Song.mk "u" " " "audio/mp4" "Song" ["x"] "rock" 120
                              "2020" 9]} ∅,
     Ok (Song.mk "u" " " "audio/mp4" "Song" ["x"] "rock" 120 "2020" 9)).
Proof. by vm_compute. Qed.

(** ** The duration aggregate *)

Section durations.
Implicit Types (songs : gmap string Song) (l : list string).

Lemma sumDurations_nil songs : sumDurations songs [] = 0.
Proof. reflexivity. Qed.

Lemma sumDurations_cons songs x l :
  sumDurations songs (x :: l)
  = from_option Song.duration 0 (songs !! x) + sumDurations songs l.
Proof.
  unfold sumDurations, memberDurations. simpl.
  destruct (songs !! x); reflexivity.
Qed.

Lemma sumDurations_app songs l1 l2 :
  sumDurations songs (l1 ++ l2)
  = sumDurations songs l1 + sumDurations songs l2.
Proof.
  induction l1 as [|x l1 IH]; simpl.
  - rewrite sumDurations_nil. lia.
  - rewrite !sumDurations_cons, IH. lia.
Qed.

Lemma sumDurations_snoc songs l x song :
  songs !! x = Some song ->
  sumDurations songs (l ++ [x]) = sumDurations songs l + Song.duration song.
Proof.
  intros H. rewrite sumDurations_app, sumDurations_cons, H.
  rewrite sumDurations_nil. simpl. lia.
Qed.

Lemma sumDurations_delete songs l i x :
  l !! i = Some x ->
  sumDurations songs l
  = from_option Song.duration 0 (songs !! x)
    + sumDurations songs (delete i l).
Proof.
  revert i. induction l as [|a l IH]; intros i Hi; [done|].
  destruct i as [|i]; simpl in *.
  - injection Hi as ->. apply sumDurations_cons.
  - rewrite !sumDurations_cons, (IH i Hi). lia.
Qed.

Lemma sumDurations_nonneg songs l :
  (∀ k song, songs !! k = Some song -> 0 ≤ Song.duration song) ->
  0 ≤ sumDurations songs l.
Proof.
  intros Hpos. induction l as [|x l IH]; [done|].
  rewrite sumDurations_cons.
  destruct (songs !! x) as [song|] eqn:Hx; simpl; [|lia].
  specialize (Hpos x song Hx). lia.
Qed.

(** The sum only looks at the durations of the listed ids. *)
Lemma sumDurations_ext songs songs' l :
  (∀ x, x ∈ l -> Song.duration <$> songs' !! x = Song.duration <$> songs !! x) ->
  sumDurations songs' l = sumDurations songs l.
Proof.
  induction l as [|x l IH]; intros Hext; [done|].
  rewrite !sumDurations_cons, IH.
  - pose proof (Hext x (list_elem_of_here x l)) as Hx.
    destruct (songs' !! x), (songs !! x); simpl in *; congruence.
  - intros y Hy. apply Hext. by apply list_elem_of_further.
Qed.

(** The loop of [addSongsToPlaylist] adds to [totalDuration] what it
    adds to the sum over [songs]. *)
Lemma add_loop_durations songs l acc :
  let r := fold_left (addSong songs) l acc in
  Playlist.totalDuration r.1 - sumDurations songs (Playlist.songs r.1)
  = Playlist.totalDuration acc.1
    - sumDurations songs (Playlist.songs acc.1).
Proof.
  simpl.
  apply (add_loop_ind songs
           (fun r => Playlist.totalDuration r.1
                     - sumDurations songs (Playlist.songs r.1)
                     = Playlist.totalDuration acc.1
                       - sumDurations songs (Playlist.songs acc.1)));
    [|done].
  intros r x Hr.
  destruct (addSong_cases songs r x) as [-> | (sg & Hx & _ & ->)];
    [done|]. simpl.
  rewrite (sumDurations_snoc _ _ _ sg) by done. lia.
Qed.
End durations.

(** ** States with sound durations *)

Lemma duration_sound_init : duration_sound init.
Proof. split; [apply well_formed_init | done | done]. Qed.

(** Writing a playlist whose total is the sum over its members. *)
Lemma duration_invariant_insert st key q :
  duration_invariant st ->
  Playlist.totalDuration q = sumDurations (songsStorage st) (Playlist.songs q) ->
  duration_invariant (mkState (songsStorage st)
                              (<[key := q]> (playlistsStorage st))).
Proof.
  intros Hinv Hq id p. simpl. destruct (decide (key = id)) as [->|Hne].
  - rewrite lookup_insert_eq. by intros [= <-].
  - rewrite lookup_insert_ne by done. apply Hinv.
Qed.

(** Writing a song does not disturb the totals when the durations of
    the members of every playlist stay what they were. *)
Lemma duration_invariant_insert_song st key song :
  well_formed st -> duration_invariant st ->
  (∀ old, songsStorage st !! key = Some old ->
          Song.duration song = Song.duration old) ->
  (songsStorage st !! key = None ->
   ∀ id p, playlistsStorage st !! id = Some p -> key ∉ Playlist.songs p) ->
  duration_invariant (mkState (<[key := song]> (songsStorage st))
                              (playlistsStorage st)).
Proof.
  intros Hwf Hinv Hold Hnew id p Hp. simpl in *.
  rewrite (Hinv id p Hp). symmetry. apply sumDurations_ext.
  intros x Hx. destruct (decide (key = x)) as [->|Hne].
  - rewrite lookup_insert_eq. simpl.
    destruct (songsStorage st !! x) as [old|] eqn:Hx'; simpl.
    + f_equal. by apply Hold.
    + exfalso. by apply (Hnew eq_refl id p Hp).
  - by rewrite lookup_insert_ne.
Qed.

Lemma duration_sound_uploadSong uuid now payload st :
  duration_sound st -> uuid ≠ "" ->
  0 ≤ SongPayload.duration payload ->
  songsStorage st !! uuid = None ->
  duration_sound (uploadSong uuid now payload st).1.
Proof.
  intros [Hwf Hpos Hinv] Huuid Hd Hfresh.
  split; [by apply well_formed_uploadSong | |];
    unfold uploadSong; repeat (case_match; simpl; [done|]).
  - intros k song. destruct (decide (uuid = k)) as [->|Hne].
    + rewrite lookup_insert_eq. by intros [= <-].
    + rewrite lookup_insert_ne by done. apply Hpos.
  - apply duration_invariant_insert_song; [done | done | |].
    + intros old. by rewrite Hfresh.
    + intros _ id p Hp Hin.
      destruct (well_formed_lookup _ _ _ Hwf Hp) as (_ & _ & _ & Hmem).
      destruct (Hmem uuid Hin) as [sg Hsg]. congruence.
Qed.

Lemma duration_sound_createPlaylist uuid caller now payload st :
  duration_sound st -> uuid ≠ "" ->
  duration_sound (createPlaylist uuid caller now payload st).1.
Proof.
  intros [Hwf Hpos Hinv] Huuid.
  split; [by apply well_formed_createPlaylist | |];
    unfold createPlaylist; repeat (case_match; simpl; [done|]); [done|].
  by apply duration_invariant_insert.
Qed.

Lemma duration_sound_updatePlaylist caller now id payload st :
  duration_sound st -> duration_sound (updatePlaylist caller now id payload st).1.
Proof.
  intros [Hwf Hpos Hinv].
  split; [by apply well_formed_updatePlaylist | |]; unfold updatePlaylist;
    destruct (playlistsStorage st !! id) as [p|] eqn:Hp; try done;
    case_match; simpl; try done.
  apply duration_invariant_insert; [done|]. simpl. by apply (Hinv id).
Qed.

Lemma duration_sound_addSongsToPlaylist caller now id songs st :
  duration_sound st ->
  duration_sound (addSongsToPlaylist caller now id songs st).1.
Proof.
  intros [Hwf Hpos Hinv].
  split; [by apply well_formed_addSongsToPlaylist | |];
    unfold addSongsToPlaylist; (case_match; simpl; [done|]);
    destruct (playlistsStorage st !! id) as [p|] eqn:Hp; try done;
    (case_match; simpl; [done|]);
    pose proof (add_loop_durations (songsStorage st) songs
                  (withUpdatedAt p now, false)) as Hsum;
    destruct (fold_left _ songs _) as [q flag]; destruct flag; simpl in *;
    try done.
  apply duration_invariant_insert; [done|].
  rewrite <- (Hinv id p Hp) in Hsum. lia.
Qed.

Lemma duration_sound_updateSong id payload st :
  duration_sound st ->
  (∀ song, songsStorage st !! id = Some song ->
           SongPayload.duration payload = Song.duration song) ->
  duration_sound (updateSong id payload st).1.
Proof.
  intros [Hwf Hpos Hinv] Hsame.
  split; [by apply well_formed_updateSong | |]; unfold updateSong;
    destruct (songsStorage st !! id) as [song|] eqn:Hs; simpl; try done.
  - intros k sg. destruct (decide (id = k)) as [->|Hne].
    + rewrite lookup_insert_eq. intros [= <-]. simpl.
      rewrite (Hsame song eq_refl). by apply (Hpos k).
    + rewrite lookup_insert_ne by done. apply Hpos.
  - apply duration_invariant_insert_song; [done | done | |].
    + intros old Hold. rewrite Hs in Hold. injection Hold as <-.
      simpl. by apply Hsame.
    + intros Hnone. congruence.
Qed.

Lemma duration_sound_deletePlaylist caller id st :
  duration_sound st -> duration_sound (deletePlaylist caller id st).1.
Proof.
  intros [Hwf Hpos Hinv].
  split; [by apply well_formed_deletePlaylist | |]; unfold deletePlaylist;
    destruct (playlistsStorage st !! id) as [p|] eqn:Hp; try done;
    case_match; simpl; try done.
  intros k q. simpl. destruct (decide (id = k)) as [->|Hne].
  - by rewrite lookup_delete_eq.
  - rewrite lookup_delete_ne by done. apply Hinv.
Qed.

Lemma duration_sound_deleteSongFromPlaylist caller now playlistId songId st :
  duration_sound st ->
  duration_sound (deleteSongFromPlaylist caller now playlistId songId st).1.
Proof.
  intros [Hwf Hpos Hinv].
  split; [by apply well_formed_deleteSongFromPlaylist | |];
    unfold deleteSongFromPlaylist;
    (case_match; simpl; [done|]); (case_match; simpl; [done|]);
    destruct (playlistsStorage st !! playlistId) as [p|] eqn:Hp; try done;
    (case_match; simpl; [done|]);
    destruct (findIndex _ _) as [i|] eqn:Hi; simpl; try done.
  apply duration_invariant_insert; [done|]. simpl.
  apply findIndex_Some in Hi as [Hi _].
  destruct (well_formed_lookup _ _ _ Hwf Hp) as (_ & _ & _ & Hmem).
  destruct (Hmem songId) as [song Hsong];
    [by eapply list_elem_of_lookup_2|].
  pose proof (sumDurations_delete (songsStorage st) _ _ _ Hi) as Hsum.
  rewrite Hsong in Hsum. simpl in Hsum.
  pose proof (sumDurations_nonneg (songsStorage st)
                (delete i (Playlist.songs p)) Hpos) as Hrest.
  rewrite Hsong, durationAfterDelete_subtract;
    rewrite (Hinv playlistId p Hp); unfold splice1; lia.
Qed.

Lemma duration_sound_exec c st :
  duration_sound st -> duration_safe st c = true -> duration_sound (exec c st).
Proof.
  intros Hds Hc. unfold duration_safe in Hc.
  apply andb_true_iff in Hc as [Huuid Hc]. destruct c; simpl in *.
  - apply andb_true_iff in Hc as [Hd Hfresh]. apply Z.leb_le in Hd.
    apply negb_true_iff, bool_decide_eq_false in Hfresh.
    apply duration_sound_uploadSong; [done | by apply truthy_true | done |].
    by apply eq_None_not_Some.
  - apply duration_sound_createPlaylist; [done | by apply truthy_true].
  - by apply duration_sound_updatePlaylist.
  - by apply duration_sound_addSongsToPlaylist.
  - apply duration_sound_updateSong; [done|].
    intros song Hs. rewrite Hs in Hc. by apply bool_decide_eq_true in Hc.
  - by apply duration_sound_deletePlaylist.
  - by apply duration_sound_deleteSongFromPlaylist.
Qed.

Lemma duration_safe_reachable st :
  reachable_via duration_safe st -> duration_sound st.
Proof.
  induction 1 as [|st c _ IH Hc]; [apply duration_sound_init|].
  by apply duration_sound_exec.
Qed.

(** C1, as the code has it: in every state reached by calls that keep
    catalogue durations non-negative and fixed (uploads carry a
    non-negative duration and an unused identifier, [updateSong] leaves
    the duration alone), the [totalDuration] of every stored playlist is
    the sum of the durations of the ids in its [songs] that are in the
    catalogue, and this still holds after one more such call, whichever
    method it is; [createPlaylist], [addSongsToPlaylist] and
    [deleteSongFromPlaylist] are unrestricted. *)
Theorem total_duration_invariant st c :
  reachable_via duration_safe st ->
  duration_safe st c = true ->
  duration_invariant st ∧ duration_invariant (exec c st).
Proof.
  intros Hreach Hc. split.
  - by apply duration_safe_reachable.
  - apply duration_safe_reachable. by apply reach_call.
Qed.

Lemma total_duration_invariant_witness :
  reachable_via duration_safe demo
  ∧ duration_safe demo (DeleteSongFromPlaylist "alice" 9 "p" "a") = true
  ∧ duration_invariant demo
  ∧ duration_invariant (exec (DeleteSongFromPlaylist "alice" 9 "p" "a") demo).
Proof.
  assert (reachable_via duration_safe demo) as Hreach.
  { apply reachable_via_run; [apply reach_init | by vm_compute]. }
  split_and!; [done | reflexivity | |];
    apply (total_duration_invariant demo
             (DeleteSongFromPlaylist "alice" 9 "p" "a") Hreach eq_refl).
Defined.

(** C1 as stated fails.  With a song of negative duration in the
    playlist, removing another member makes the difference negative and
    [deleteSongFromPlaylist] writes 0, while the remaining member sums
    to -5.  The totals were right before that call. *)
Lemma total_duration_clamp_counterexample :
  reachable clamp_before
  ∧ duration_invariant clamp_before
  ∧ reachable clamp_after
  ∧ playlistsStorage clamp_after !! "p"
    = Some (Playlist.mk "p" "alice" "Mix" "My mix" ["n"] 0 3 (Some 5%N))
  ∧ sumDurations (songsStorage clamp_after) ["n"] = -5
  ∧ ¬ duration_invariant clamp_after.
Proof.
  assert (reachable clamp_before) as Hbefore.
  { apply reachable_via_run; [apply reach_init | by vm_compute]. }
  assert (playlistsStorage clamp_after !! "p"
          = Some (Playlist.mk "p" "alice" "Mix" "My mix" ["n"] 0 3 (Some 5%N)))
    as Hafter by (by vm_compute).
  split_and!; [done | | by apply reach_call | done | by vm_compute |].
  - assert (playlistsStorage clamp_before
            = {["p" := Playlist.mk "p" "alice" "Mix" "My mix" ["n"; "m"] (-2)
                                   3 (Some 4%N)]}) as Hpl by (by vm_compute).
    intros id p. rewrite Hpl. intros [<- <-]%lookup_singleton_Some.
    by vm_compute.
  - intros Hinv. specialize (Hinv "p" _ Hafter). vm_compute in Hinv. done.
Qed.

(** [updateSong] is the other way to part a total from its sum: it
    rewrites the duration of a song that playlists already count. *)
Lemma updateSong_breaks_total :
  reachable demo_retimed
  ∧ playlistsStorage demo_retimed !! "p" = Some demo_playlist
  ∧ sumDurations (songsStorage demo_retimed) (Playlist.songs demo_playlist)
    = 700
  ∧ ¬ duration_invariant demo_retimed.
Proof.
  assert (playlistsStorage demo_retimed !! "p" = Some demo_playlist) as Hp
    by (by vm_compute).
  split_and!; [apply reach_call; [apply demo_reachable | done] | done
              | by vm_compute |].
  intros Hinv. specialize (Hinv "p" _ Hp). vm_compute in Hinv. done.
Qed.

(** * Further properties of the methods *)

(** ** What a call may write *)

(** A call addressed to a playlist either leaves the state alone, or
    it is made by the admin of that playlist and deletes it or replaces
    it by a record with the same id, admin and creation time. *)
Lemma addressed_call_shape c id caller st :
  addressed c = Some (id, caller) ->
  exec c st = st
  ∨ ∃ p, playlistsStorage st !! id = Some p
         ∧ Playlist.admin p = caller
         ∧ songsStorage (exec c st) = songsStorage st
         ∧ (playlistsStorage (exec c st) = delete id (playlistsStorage st)
            ∨ ∃ q, playlistsStorage (exec c st)
                   = <[Playlist.id p := q]> (playlistsStorage st)
                   ∧ Playlist.id q = Playlist.id p
                   ∧ Playlist.admin q = Playlist.admin p
                   ∧ Playlist.createdAt q = Playlist.createdAt p
                   ∧ (not_updatePlaylist c = true ->
                      Playlist.name q = Playlist.name p)).
Proof.
  intros Hc. destruct c; simpl in Hc; try done; injection Hc as -> ->; simpl.
  - unfold updatePlaylist.
    destruct (playlistsStorage st !! id) as [p|] eqn:Hp; [|by left].
    destruct (strict_eq (Playlist.admin p) caller) eqn:Ha; simpl; [|by left].
    apply strict_eq_true in Ha. right. exists p. split_and!; try done.
    right. eexists. split_and!; simpl; done.
  - unfold addSongsToPlaylist. case_match; [by left|].
    destruct (playlistsStorage st !! id) as [p|] eqn:Hp; [|by left].
    destruct (strict_eq (Playlist.admin p) caller) eqn:Ha; simpl; [|by left].
    apply strict_eq_true in Ha.
    pose proof (add_loop_header (songsStorage st) songs
                  (withUpdatedAt p now, false)) as (Hi & Had & Hn & _ & Hcr & _).
    destruct (fold_left _ songs _) as [q flag]. destruct flag; [|by left].
    simpl in *. right. exists p. split_and!; try done.
    right. exists q. split_and!; done.
  - unfold deletePlaylist.
    destruct (playlistsStorage st !! id) as [p|] eqn:Hp; [|by left].
    destruct (strict_eq (Playlist.admin p) caller) eqn:Ha; simpl; [|by left].
    apply strict_eq_true in Ha. right. exists p. split_and!; try done.
    by left.
  - unfold deleteSongFromPlaylist.
    case_match; [by left|]. case_match; [by left|].
    destruct (playlistsStorage st !! id) as [p|] eqn:Hp; [|by left].
    destruct (strict_eq (Playlist.admin p) caller) eqn:Ha; simpl; [|by left].
    apply strict_eq_true in Ha.
    destruct (findIndex _ _) as [i|]; [|by left]. simpl.
    right. exists p. split_and!; try done.
    right. eexists. split_and!; simpl; done.
Qed.

(** A call that is not addressed to a playlist and creates none leaves
    the playlists alone. *)
Lemma unaddressed_call_playlists c st :
  addressed c = None -> creates c = None ->
  playlistsStorage (exec c st) = playlistsStorage st.
Proof.
  intros Ha Hc. destruct c; simpl in *; try done.
  - unfold uploadSong. by repeat (case_match; simpl; [done|]).
  - unfold updateSong. by case_match.
Qed.

Lemma createPlaylist_shape uuid caller now payload st :
  (createPlaylist uuid caller now payload st).1 = st
  ∨ (PlaylistPayload.name payload ≠ ""
     ∧ (∀ k p, playlistsStorage st !! k = Some p ->
               Playlist.name p ≠ PlaylistPayload.name payload)
     ∧ (createPlaylist uuid caller now payload st).1
       = mkState (songsStorage st)
           (<[uuid := Playlist.mk uuid caller (PlaylistPayload.name payload)
                        (PlaylistPayload.description payload) [] 0 now None]>
              (playlistsStorage st))).
Proof.
  unfold createPlaylist.
  destruct (strict_eq (PlaylistPayload.name payload) "") eqn:Hn; [by left|].
  destruct (List.find _ _) eqn:Hf; [by left|]. right.
  apply strict_eq_false in Hn. split_and!; [done | | done].
  intros k p Hk. apply strict_eq_false.
  apply (proj1 (find_none_iff _ _) Hf). apply elem_of_values. eauto.
Qed.

Lemma uploadSong_shape uuid now payload st :
  (uploadSong uuid now payload st).1 = st
  ∨ ((∀ k song, songsStorage st !! k = Some song ->
                ¬ (Song.fileName song = SongPayload.fileName payload
                   ∧ Song.title song = SongPayload.title payload))
     ∧ (uploadSong uuid now payload st).1
       = mkState
           (<[uuid := Song.mk uuid (SongPayload.fileName payload)
                        (SongPayload.mimeType payload)
                        (SongPayload.title payload)
                        (SongPayload.singers payload)
                        (SongPayload.genre payload)
                        (SongPayload.duration payload)
                        (SongPayload.releaseDate payload) now]>
              (songsStorage st))
           (playlistsStorage st)).
Proof.
  unfold uploadSong. repeat (case_match; simpl; [by left|]).
  destruct (List.find _ _) eqn:Hf; [by left|]. right. split; [|done].
  intros k song Hk [Hfn Ht].
  assert (song ∈ values (songsStorage st)) as Hin
    by (apply elem_of_values; eauto).
  pose proof (proj1 (find_none_iff _ _) Hf song Hin) as Hb.
  apply andb_false_iff in Hb as [Hb | Hb]; by apply strict_eq_false in Hb.
Qed.

(** X1: in a reachable state, a call changes the record stored under a
    playlist id only when it is addressed to that id by the playlist's
    admin, or when it creates a playlist under that very id; every other
    call, whatever its method, leaves the record as it is. *)
Theorem only_admin_changes_playlist st c id p :
  reachable st ->
  playlistsStorage st !! id = Some p ->
  creates c ≠ Some id ->
  (∀ caller, addressed c = Some (id, caller) -> caller ≠ Playlist.admin p) ->
  playlistsStorage (exec c st) !! id = Some p.
Proof.
  intros Hreach Hp Hcreate Hcaller. apply reachable_well_formed in Hreach.
  destruct (addressed c) as [[id' caller]|] eqn:Ha.
  - destruct (addressed_call_shape c id' caller st Ha)
      as [-> | (p' & Hp' & Hadmin & _ & Hpl)]; [done|].
    destruct (decide (id' = id)) as [->|Hne].
    { exfalso. apply (Hcaller caller eq_refl). congruence. }
    destruct (well_formed_lookup _ _ _ Hreach Hp') as (_ & Hk & _).
    destruct Hpl as [-> | (q & -> & _)].
    + by rewrite lookup_delete_ne.
    + rewrite Hk. by rewrite lookup_insert_ne.
  - destruct (creates c) as [uuid|] eqn:Hc.
    + destruct c; simpl in Hc; try done. injection Hc as ->. simpl.
      destruct (createPlaylist_shape uuid caller now payload st)
        as [-> | (_ & _ & ->)]; [done|]. simpl.
      rewrite lookup_insert_ne; [done | congruence].
    + by rewrite unaddressed_call_playlists.
Qed.

Lemma only_admin_changes_playlist_witness :
  reachable demo
  ∧ playlistsStorage demo !! "p" = Some demo_playlist
  ∧ playlistsStorage
      (exec (DeleteSongFromPlaylist "bob" 9 "p" "a") demo) !! "p"
    = Some demo_playlist.
Proof.
  split_and!; [auto with demo | auto with demo |].
  apply (only_admin_changes_playlist demo
           (DeleteSongFromPlaylist "bob" 9 "p" "a") "p" demo_playlist).
  - apply demo_reachable.
  - apply demo_lookup.
  - discriminate.
  - intros caller [= <-]. discriminate.
Defined.

(** X2: in a reachable state, as long as a playlist id stays in the
    store and no playlist is created under it again, the record under it
    keeps its [id], its [admin] and its [createdAt] through every call. *)
Theorem playlist_identity_is_fixed st c id p p' :
  reachable st ->
  playlistsStorage st !! id = Some p ->
  creates c ≠ Some id ->
  playlistsStorage (exec c st) !! id = Some p' ->
  Playlist.id p' = id
  ∧ Playlist.admin p' = Playlist.admin p
  ∧ Playlist.createdAt p' = Playlist.createdAt p.
Proof.
  intros Hreach Hp Hcreate Hp'. apply reachable_well_formed in Hreach.
  destruct (well_formed_lookup _ _ _ Hreach Hp) as (_ & Hid & _).
  assert (p' = p -> Playlist.id p' = id
                    ∧ Playlist.admin p' = Playlist.admin p
                    ∧ Playlist.createdAt p' = Playlist.createdAt p) as Hsame
    by (by intros ->).
  destruct (addressed c) as [[id' caller]|] eqn:Ha.
  - destruct (addressed_call_shape c id' caller st Ha)
      as [Heq | (p0 & Hp0 & _ & _ & Hpl)].
    { rewrite Heq in Hp'. apply Hsame. congruence. }
    destruct (well_formed_lookup _ _ _ Hreach Hp0) as (_ & Hk & _).
    destruct Hpl as [Hpl | (q & Hpl & Hqi & Hqa & Hqc & _)];
      rewrite Hpl in Hp'.
    + destruct (decide (id' = id)) as [->|Hne].
      * by rewrite lookup_delete_eq in Hp'.
      * rewrite lookup_delete_ne in Hp' by done. apply Hsame. congruence.
    + rewrite Hk in Hp'. destruct (decide (id' = id)) as [->|Hne].
      * rewrite lookup_insert_eq in Hp'. injection Hp' as <-.
        assert (p0 = p) as -> by congruence. by rewrite Hqi, Hqa, Hqc.
      * rewrite lookup_insert_ne in Hp' by done. apply Hsame. congruence.
  - destruct (creates c) as [uuid|] eqn:Hc.
    + destruct c; simpl in Hc; try done. injection Hc as ->. simpl in Hp'.
      destruct (createPlaylist_shape uuid caller now payload st)
        as [Heq | (_ & _ & Heq)]; rewrite Heq in Hp'.
      * apply Hsame. congruence.
      * simpl in Hp'. rewrite lookup_insert_ne in Hp' by congruence.
        apply Hsame. congruence.
    + rewrite unaddressed_call_playlists in Hp' by done.
      apply Hsame. congruence.
Qed.

Lemma playlist_identity_is_fixed_witness :
  reachable demo
  ∧ playlistsStorage demo !! "p" = Some demo_playlist
  ∧ ∀ p', playlistsStorage
            (exec (UpdatePlaylist "alice" 9 "p"
                     (PlaylistPayload.mk "Road" "Trip")) demo) !! "p"
          = Some p' ->
          Playlist.id p' = "p" ∧ Playlist.admin p' = "alice"
          ∧ Playlist.createdAt p' = 4%N.
Proof.
  split_and!; [auto with demo | auto with demo |]. intros p'.
  apply (playlist_identity_is_fixed demo
           (UpdatePlaylist "alice" 9 "p" (PlaylistPayload.mk "Road" "Trip"))
           "p" demo_playlist p').
  - apply demo_reachable.
  - apply demo_lookup.
  - discriminate.
Defined.

Lemma playlist_calls_keep_catalogue c st :
  writes_catalogue c = false -> songsStorage (exec c st) = songsStorage st.
Proof.
  intros Hc. destruct (addressed c) as [[id caller]|] eqn:Ha.
  - destruct (addressed_call_shape c id caller st Ha)
      as [-> | (p & _ & _ & Hs & _)]; done.
  - destruct c; simpl in *; try done.
    by destruct (createPlaylist_shape uuid caller now payload st)
      as [-> | (_ & _ & ->)].
Qed.

(** X3: no call removes a song from the catalogue; the playlist methods
    do not write to the catalogue at all, and [uploadSong] and
    [updateSong] do not write to the playlists. *)
Theorem catalogue_only_grows c st :
  (writes_catalogue c = false -> songsStorage (exec c st) = songsStorage st)
  ∧ (writes_catalogue c = true ->
     playlistsStorage (exec c st) = playlistsStorage st)
  ∧ (∀ k, is_Some (songsStorage st !! k) ->
          is_Some (songsStorage (exec c st) !! k)).
Proof.
  pose proof (playlist_calls_keep_catalogue c st) as Hplaylist.
  split_and!; [done | |].
  - intros Hc. apply unaddressed_call_playlists; by destruct c.
  - intros k Hk. destruct (writes_catalogue c) eqn:Hc;
      [|by rewrite Hplaylist].
    destruct c; simpl in *; try done.
    + destruct (uploadSong_shape uuid now payload st) as [-> | (_ & ->)];
        [done|]. simpl. destruct (decide (uuid = k)) as [->|Hne].
      * rewrite lookup_insert_eq. eauto.
      * by rewrite lookup_insert_ne.
    + unfold updateSong. destruct (songsStorage st !! id) eqn:Hs; [|done].
      simpl. destruct (decide (id = k)) as [->|Hne].
      * rewrite lookup_insert_eq. eauto.
      * by rewrite lookup_insert_ne.
Qed.

Lemma catalogue_only_grows_witness :
  songsStorage (exec (DeletePlaylist "alice" "p") demo) = songsStorage demo
  ∧ is_Some (songsStorage (exec (UpdateSong "a" payloadC) demo) !! "a").
Proof.
  split.
  - by apply (catalogue_only_grows (DeletePlaylist "alice" "p") demo).
  - apply (catalogue_only_grows (UpdateSong "a" payloadC) demo).
    vm_compute. eexists. reflexivity.
Defined.

Lemma songs_keyed_reachable ok st : reachable_via ok st -> songs_keyed st.
Proof.
  induction 1 as [|s c _ IH _]; [done|].
  intros k sg. destruct (writes_catalogue c) eqn:Hc.
  - destruct c; simpl in *; try done.
    + destruct (uploadSong_shape uuid now payload s) as [-> | (_ & ->)];
        [apply IH|]. simpl. destruct (decide (uuid = k)) as [->|Hne].
      * rewrite lookup_insert_eq. by intros [= <-].
      * rewrite lookup_insert_ne by done. apply IH.
    + unfold updateSong. destruct (songsStorage s !! id) eqn:Hs;
        [|apply IH]. simpl. destruct (decide (id = k)) as [->|Hne].
      * rewrite lookup_insert_eq. intros [= <-]. simpl. by apply IH.
      * rewrite lookup_insert_ne by done. apply IH.
  - rewrite (playlist_calls_keep_catalogue c s Hc). apply IH.
Qed.

(** X4: after any sequence of calls whatsoever (no assumption on the
    generated identifiers) every song is stored under its own [id], so
    [getSong] returns a record whose [id] is the one asked for. *)
Theorem songs_stored_under_their_id st id song :
  reachable_via (fun _ _ => true) st ->
  getSong id st = Ok song ->
  Song.id song = id ∧ songsStorage st !! id = Some song.
Proof.
  intros Hreach Hget. apply songs_keyed_reachable in Hreach.
  unfold getSong in Hget. case_match; [done|].
  destruct (songsStorage st !! id) as [sg|] eqn:Hs; [|done].
  injection Hget as ->. split; [by apply Hreach | done].
Qed.

Lemma songs_stored_under_their_id_witness :
  reachable_via (fun _ _ => true) demo
  ∧ getSong "c" demo = Ok songC
  ∧ Song.id songC = "c".
Proof.
  assert (reachable_via (fun _ _ => true) demo) as Hreach.
  { apply reachable_via_run; [apply reach_init | reflexivity]. }
  split_and!; [done | by vm_compute |].
  apply (songs_stored_under_their_id demo "c" songC Hreach). by vm_compute.
Defined.

(** ** Uploading and creating *)

(** X5: when [uploadSong] succeeds with a non-empty identifier, the
    returned song carries that identifier, the call time and the payload
    fields; [getSong] reads it back, [getSongs] lists it, the songs under
    other ids are untouched and so are the playlists. *)
Theorem uploadSong_then_getSong uuid now payload st st' song :
  uuid ≠ "" ->
  uploadSong uuid now payload st = (st', Ok song) ->
  song = Song.mk uuid (SongPayload.fileName payload)
                 (SongPayload.mimeType payload) (SongPayload.title payload)
                 (SongPayload.singers payload) (SongPayload.genre payload)
                 (SongPayload.duration payload)
                 (SongPayload.releaseDate payload) now
  ∧ getSong uuid st' = Ok song
  ∧ (∃ l, getSongs st' = Ok l ∧ song ∈ l)
  ∧ (∀ k, k ≠ uuid -> songsStorage st' !! k = songsStorage st !! k)
  ∧ playlistsStorage st' = playlistsStorage st.
Proof.
  intros Huuid Hup. unfold uploadSong in Hup.
  repeat (case_match; [done|]).
  injection Hup as <- <-. simpl.
  assert (<[uuid := Song.mk uuid (SongPayload.fileName payload)
                      (SongPayload.mimeType payload)
                      (SongPayload.title payload)
                      (SongPayload.singers payload)
                      (SongPayload.genre payload)
                      (SongPayload.duration payload)
                      (SongPayload.releaseDate payload) now]>
            (songsStorage st) !! uuid = Some
          (Song.mk uuid (SongPayload.fileName payload)
                      (SongPayload.mimeType payload)
                      (SongPayload.title payload)
                      (SongPayload.singers payload)
                      (SongPayload.genre payload)
                      (SongPayload.duration payload)
                      (SongPayload.releaseDate payload) now)) as Hlook
    by apply lookup_insert_eq.
  split_and!; [done | | | | done].
  - unfold getSong. apply strict_eq_false in Huuid. rewrite Huuid. simpl.
    by rewrite Hlook.
  - eexists. split; [reflexivity|]. apply elem_of_values. eauto.
  - intros k Hk. by rewrite lookup_insert_ne.
Qed.

Lemma uploadSong_then_getSong_witness :
  getSong "d" (uploadSong "d" 9
                 (SongPayload.mk "d.mp4" "audio/mp4" "Song D" ["x"] "rock" 7
                                 "2023") demo).1
  = Ok (Song.mk "d" "d.mp4" "audio/mp4" "Song D" ["x"] "rock" 7 "2023" 9).
Proof.
  apply (uploadSong_then_getSong "d" 9%N
           (SongPayload.mk "d.mp4" "audio/mp4" "Song D" ["x"] "rock" 7 "2023")
           demo).
  - discriminate.
  - by vm_compute.
Defined.

(** X6: a payload that passes the emptiness checks of [uploadSong] but
    repeats both the [fileName] and the [title] of a stored song is
    refused with the already-exists error, and nothing is written. *)
Theorem uploadSong_duplicate uuid now payload st k stored :
  SongPayload.fileName payload ≠ "" ->
  SongPayload.mimeType payload ≠ "" ->
  SongPayload.title payload ≠ "" ->
  SongPayload.singers payload ≠ [] ->
  songsStorage st !! k = Some stored ->
  Song.fileName stored = SongPayload.fileName payload ->
  Song.title stored = SongPayload.title payload ->
  uploadSong uuid now payload st = (st, Err "Song already exists.").
Proof.
  intros Hf%strict_eq_false Hm%strict_eq_false Ht%strict_eq_false Hs
         Hk Hfn Htt.
  unfold uploadSong. rewrite Hf, Hm, Ht, length_check_passes by done.
  destruct (List.find _ _) eqn:Hfind; [done|]. exfalso.
  assert (stored ∈ values (songsStorage st)) as Hin
    by (apply elem_of_values; eauto).
  pose proof (proj1 (find_none_iff _ _) Hfind stored Hin) as Hb.
  apply andb_false_iff in Hb as [Hb | Hb]; by apply strict_eq_false in Hb.
Qed.

Lemma uploadSong_duplicate_witness :
  uploadSong "d" 9
    (SongPayload.mk "c.mp4" "audio/ogg" "Song C" ["q"] "folk" 1 "1999") demo
  = (demo, Err "Song already exists.").
Proof.
  apply (uploadSong_duplicate "d" 9%N
           (SongPayload.mk "c.mp4" "audio/ogg" "Song C" ["q"] "folk" 1 "1999")
           demo "c" songC);
    [discriminate | discriminate | discriminate | discriminate
    | by vm_compute | reflexivity | reflexivity].
Defined.

(** X7: in every state reached without [updateSong], no two stored
    songs have both the same [fileName] and the same [title]; the
    identifiers handed to [uploadSong] may even repeat. *)
Theorem catalogue_stays_unique st :
  reachable_via (fun _ c => not_updateSong c) st -> catalogue_unique st.
Proof.
  induction 1 as [|s c _ IH Hc]; [done|].
  destruct (writes_catalogue c) eqn:Hw;
    [|unfold catalogue_unique;
      by rewrite (playlist_calls_keep_catalogue c s Hw)].
  destruct c; simpl in *; try done.
  destruct (uploadSong_shape uuid now payload s) as [-> | (Hnew & ->)];
    [done|].
  intros k1 k2 s1 s2. simpl.
  destruct (decide (uuid = k1)) as [<-|H1], (decide (uuid = k2)) as [<-|H2];
    rewrite ?lookup_insert_eq, ?lookup_insert_ne by done; try done.
  - intros [= <-] H2' Hfn Ht. simpl in *. exfalso.
    by apply (Hnew k2 s2 H2').
  - intros H1' [= <-] Hfn Ht. simpl in *. exfalso.
    by apply (Hnew k1 s1 H1').
  - apply IH.
Qed.

Lemma catalogue_stays_unique_witness :
  reachable_via (fun _ c => not_updateSong c) demo ∧ catalogue_unique demo.
Proof.
  assert (reachable_via (fun _ c => not_updateSong c) demo) as Hreach.
  { apply reachable_via_run; [apply reach_init | reflexivity]. }
  split; [done|]. by apply (catalogue_stays_unique demo).
Defined.

(** [updateSong] makes no such check: it can give a song the file name
    and title of another one. *)
Lemma updateSong_can_duplicate :
  reachable (exec (UpdateSong "a" payloadB) demo)
  ∧ ¬ catalogue_unique (exec (UpdateSong "a" payloadB) demo).
Proof.
  split; [apply reach_call; [apply demo_reachable | done]|].
  intros Huniq.
  assert ("a" = "b") as Heq; [|done].
  eapply Huniq; by vm_compute.
Qed.

(** X8: when [createPlaylist] succeeds with a non-empty identifier, the
    new playlist belongs to the caller, has no songs, a total duration
    of 0, the call time as [createdAt] and no [updatedAt];
    [getPlaylist] reads it back, [getPlaylists] lists it, the playlists
    under other ids are untouched and so is the catalogue. *)
Theorem createPlaylist_then_getPlaylist uuid caller now payload st st' p :
  uuid ≠ "" ->
  createPlaylist uuid caller now payload st = (st', Ok p) ->
  p = Playlist.mk uuid caller (PlaylistPayload.name payload)
                  (PlaylistPayload.description payload) [] 0 now None
  ∧ getPlaylist uuid st' = Ok p
  ∧ (∃ l, getPlaylists st' = Ok l ∧ p ∈ l)
  ∧ (∀ k, k ≠ uuid -> playlistsStorage st' !! k = playlistsStorage st !! k)
  ∧ songsStorage st' = songsStorage st.
Proof.
  intros Huuid Hcr. unfold createPlaylist in Hcr.
  repeat (case_match; [done|]). injection Hcr as <- <-. simpl.
  split_and!; [done | | | | done].
  - apply getPlaylist_stored; [done|]. apply lookup_insert_eq.
  - eexists. split; [reflexivity|]. apply elem_of_values. exists uuid.
    apply lookup_insert_eq.
  - intros k Hk. by rewrite lookup_insert_ne.
Qed.

Lemma createPlaylist_then_getPlaylist_witness :
  getPlaylist "q"
    (createPlaylist "q" "bob" 9 (PlaylistPayload.mk "Road" "") demo).1
  = Ok (Playlist.mk "q" "bob" "Road" "" [] 0 9 None).
Proof.
  apply (createPlaylist_then_getPlaylist "q" "bob" 9%N
           (PlaylistPayload.mk "Road" "") demo).
  - discriminate.
  - by vm_compute.
Defined.

(** X9: [createPlaylist] refuses an empty name with the
    playlist-name error and a name that a stored playlist already has
    with the already-exists error, whoever the caller is; nothing is
    written in either case.  The description is not looked at. *)
Theorem createPlaylist_refusals uuid caller now payload st :
  (PlaylistPayload.name payload = "" ->
   createPlaylist uuid caller now payload st
   = (st, Err "Playlist name cannot be empty."))
  ∧ (PlaylistPayload.name payload ≠ "" ->
     (∃ k p, playlistsStorage st !! k = Some p
             ∧ Playlist.name p = PlaylistPayload.name payload) ->
     createPlaylist uuid caller now payload st
     = (st, Err "Playlist already exists.")).
Proof.
  unfold createPlaylist. split.
  - intros ->. done.
  - intros Hn%strict_eq_false (k & p & Hk & Hname). rewrite Hn.
    destruct (List.find _ _) eqn:Hfind; [done|]. exfalso.
    assert (p ∈ values (playlistsStorage st)) as Hin
      by (apply elem_of_values; eauto).
    pose proof (proj1 (find_none_iff _ _) Hfind p Hin) as Hb.
    by apply strict_eq_false in Hb.
Qed.

Lemma createPlaylist_refusals_witness :
  createPlaylist "q" "bob" 9 (PlaylistPayload.mk "Mix" "Other") demo
  = (demo, Err "Playlist already exists.").
Proof.
  apply (createPlaylist_refusals "q" "bob" 9%N
           (PlaylistPayload.mk "Mix" "Other") demo).
  - discriminate.
  - exists "p", demo_playlist. split; [apply demo_lookup | reflexivity].
Defined.

(** X10: in every state reached without [updatePlaylist], no two
    stored playlists have the same [name]. *)
Theorem playlist_names_stay_unique st :
  reachable_via (fun _ c => uuid_ok c && not_updatePlaylist c) st ->
  names_unique st.
Proof.
  intros Hreach.
  assert (reachable st ∧ names_unique st) as [_ Huniq]; [|done].
  induction Hreach as [|s c _ [Hs IH] Hc]; [by split; [apply reach_init|]|].
  apply andb_true_iff in Hc as [Huuid Hnot].
  split; [by apply reach_call|]. apply reachable_well_formed in Hs.
  destruct (addressed c) as [[id caller]|] eqn:Ha.
  - destruct (addressed_call_shape c id caller s Ha)
      as [-> | (p & Hp & _ & _ & Hpl)]; [done|].
    destruct (well_formed_lookup _ _ _ Hs Hp) as (_ & Hk & _).
    intros k1 k2 p1 p2.
    destruct Hpl as [-> | (q & -> & _ & _ & _ & Hname)].
    + intros [_ H1]%lookup_delete_Some [_ H2]%lookup_delete_Some.
      by apply IH.
    + specialize (Hname Hnot). rewrite Hk.
      destruct (decide (id = k1)) as [<-|H1], (decide (id = k2)) as [<-|H2];
        rewrite ?lookup_insert_eq, ?lookup_insert_ne by done; try done.
      * intros [= <-] H2' Hn. exfalso. apply H2.
        apply (IH id k2 p p2); congruence.
      * intros H1' [= <-] Hn. exfalso. apply H1.
        apply (IH id k1 p p1); congruence.
      * apply IH.
  - destruct (creates c) as [uuid|] eqn:Hcr.
    + destruct c; simpl in Hcr; try done. injection Hcr as ->. simpl.
      destruct (createPlaylist_shape uuid caller now payload s)
        as [-> | (_ & Hnew & ->)]; [done|].
      intros k1 k2 p1 p2. simpl.
      destruct (decide (uuid = k1)) as [<-|H1],
               (decide (uuid = k2)) as [<-|H2];
        rewrite ?lookup_insert_eq, ?lookup_insert_ne by done; try done.
      * intros [= <-] H2' Hn. simpl in Hn. exfalso.
        by apply (Hnew k2 p2 H2').
      * intros H1' [= <-] Hn. simpl in Hn. exfalso.
        by apply (Hnew k1 p1 H1').
      * apply IH.
    + unfold names_unique. by rewrite unaddressed_call_playlists.
Qed.

Lemma playlist_names_stay_unique_witness :
  reachable_via (fun _ c => uuid_ok c && not_updatePlaylist c) demo
  ∧ names_unique demo.
Proof.
  assert (reachable_via (fun _ c => uuid_ok c && not_updatePlaylist c) demo)
    as Hreach.
  { apply reachable_via_run; [apply reach_init | reflexivity]. }
  split; [done|]. by apply (playlist_names_stay_unique demo).
Defined.

(** [updatePlaylist] makes no such check: a playlist can be renamed to
    the name of another one. *)
Lemma updatePlaylist_can_duplicate :
  ¬ names_unique
      (exec (UpdatePlaylist "bob" 9 "q" payloadP)
         (exec (CreatePlaylist "q" "bob" 8 (PlaylistPayload.mk "Road" "Trip"))
            demo)).
Proof.
  intros Huniq. assert ("p" = "q") as Heq; [|done].
  eapply Huniq; by vm_compute.
Qed.

(** ** Deleting and missing playlists *)

(** X11: in a reachable state [deletePlaylist] called by the admin
    returns the stored record and removes it, leaving the other
    playlists and the catalogue alone; from then on [getPlaylist] and
    every method addressed to that id answer that the record is not
    found, whoever calls. *)
Theorem deletePlaylist_removes st caller id p :
  reachable st ->
  playlistsStorage st !! id = Some p ->
  Playlist.admin p = caller ->
  let st' := mkState (songsStorage st) (delete id (playlistsStorage st)) in
  deletePlaylist caller id st = (st', Ok p)
  ∧ (∀ k, k ≠ id -> playlistsStorage st' !! k = playlistsStorage st !! k)
  ∧ getPlaylist id st' = Err (ErrMessages.recordWithIdNotFound "Playlist" id)
  ∧ (∀ who now payload,
       updatePlaylist who now id payload st'
       = (st', Err (ErrMessages.couldNotUpdate "playlist" id)))
  ∧ (∀ who now songs,
       songs ≠ [] ->
       addSongsToPlaylist who now id songs st'
       = (st', Err (ErrMessages.couldNotUpdate "playlist" id)))
  ∧ (∀ who now songId,
       songId ≠ "" ->
       deleteSongFromPlaylist who now id songId st'
       = (st', Err (ErrMessages.couldNotRemove "playlist" id)))
  ∧ (∀ who, deletePlaylist who id st'
            = (st', Err (ErrMessages.couldNotRemove "playlist" id))).
Proof.
  intros Hreach Hp Hadmin st'. apply reachable_well_formed in Hreach.
  destruct (well_formed_lookup _ _ _ Hreach Hp) as (Hid%strict_eq_false & _).
  assert (playlistsStorage st' !! id = None) as Hgone
    by apply lookup_delete_eq.
  split_and!.
  - unfold deletePlaylist. by rewrite Hp, admin_check_passes.
  - intros k Hk. simpl. by rewrite lookup_delete_ne.
  - unfold getPlaylist. by rewrite Hid, Hgone.
  - intros who now payload. unfold updatePlaylist. by rewrite Hgone.
  - intros who now songs Hsongs. unfold addSongsToPlaylist.
    by rewrite length_check_passes, Hgone.
  - intros who now songId Hs%strict_eq_false. unfold deleteSongFromPlaylist.
    by rewrite Hid, Hs, Hgone.
  - intros who. unfold deletePlaylist. by rewrite Hgone.
Qed.

Lemma deletePlaylist_removes_witness :
  reachable demo
  ∧ playlistsStorage demo !! "p" = Some demo_playlist
  ∧ (deletePlaylist "alice" "p" demo).2 = Ok demo_playlist
  ∧ getPlaylist "p" (deletePlaylist "alice" "p" demo).1
    = Err "Playlist with id=p not found.".
Proof.
  destruct (deletePlaylist_removes demo "alice" "p" demo_playlist)
    as (Hdel & _ & Hget & _).
  - apply demo_reachable.
  - apply demo_lookup.
  - reflexivity.
  - split_and!; [auto with demo | auto with demo | by rewrite Hdel |].
    by rewrite Hdel.
Defined.

(** ** Adding songs in general *)

(** The loop of [addSongsToPlaylist] appends, in the order of their
    first occurrence, the candidates that are in the catalogue and not
    yet members. *)
Lemma add_loop_appends songs l acc :
  songs !! "" = None ->
  ∃ added,
    NoDup added
    ∧ added `sublist_of` l
    ∧ (∀ x, x ∈ added
            ↔ x ∈ l ∧ is_Some (songs !! x) ∧ (x ∉ Playlist.songs acc.1))
    ∧ fold_left (addSong songs) l acc
      = (Playlist.mk (Playlist.id acc.1) (Playlist.admin acc.1)
                     (Playlist.name acc.1) (Playlist.description acc.1)
                     (Playlist.songs acc.1 ++ added)
                     (Playlist.totalDuration acc.1 + sumDurations songs added)
                     (Playlist.createdAt acc.1) (Playlist.updatedAt acc.1),
         acc.2 || bool_decide (added ≠ [])).
Proof.
  intros Hempty. revert acc.
  induction l as [|x l IH]; intros [q flag]; simpl.
  - exists []. split_and!; [apply NoDup_nil_2 | done | |].
    + intros x. rewrite !elem_of_nil. tauto.
    + rewrite sumDurations_nil, app_nil_r, Z.add_0_r, orb_false_r.
      by destruct q.
  - destruct (songs !! x) as [song|] eqn:Hx.
    + destruct (decide (x ∈ Playlist.songs q)) as [Hin|Hnew].
      * rewrite addSong_skip_member; [|done | intros ->; congruence].
        destruct (IH (q, flag)) as (added & Hnd & Hsub & Hmem & Heq).
        exists added. split_and!; [done | by apply sublist_cons | | done].
        intros y. rewrite Hmem, elem_of_cons. simpl.
        split; [tauto|]. intros ([-> | Hy] & Hs & Hn); [done | tauto].
      * rewrite (addSong_push songs (q, flag) x song Hx Hnew).
        destruct (IH (pushSong q x (Song.duration song), true))
          as (added & Hnd & Hsub & Hmem & Heq). simpl in *.
        exists (x :: added). split_and!.
        -- apply NoDup_cons. split; [|done]. rewrite Hmem.
           intros (_ & _ & Hn). apply Hn, elem_of_app. right.
           apply list_elem_of_here.
        -- by apply sublist_skip.
        -- intros y. rewrite !elem_of_cons, Hmem, elem_of_app,
             list_elem_of_singleton.
           destruct (decide (y = x)) as [->|Hne]; [|tauto].
           split; [|by left]. intros _. split_and!; [by left | eauto | done].
        -- rewrite Heq, <- app_assoc. simpl.
           rewrite sumDurations_cons, Hx, orb_true_r. simpl.
           f_equal. f_equal. lia.
    + rewrite addSong_skip_absent by done.
      destruct (IH (q, flag)) as (added & Hnd & Hsub & Hmem & Heq).
      exists added. split_and!; [done | by apply sublist_cons | | done].
      intros y. rewrite Hmem, elem_of_cons. simpl.
      split; [tauto|]. intros ([-> | Hy] & Hs & Hn); [|done].
      rewrite Hx in Hs. by destruct Hs.
Qed.

(** X12: in a reachable state, [addSongsToPlaylist] called by the admin
    with a non-empty list appends to [songs] a list [added] and adds the
    durations of [added] to [totalDuration], where [added] holds,
    without repetition and in the order of the candidate list, exactly
    the candidates that are in the catalogue and not yet members.  When
    [added] is empty the call fails with the nothing-added error and
    writes nothing; otherwise the record is stamped, stored and
    returned. *)
Theorem addSongs_appends_new_ones st caller now id p candidates :
  reachable st ->
  playlistsStorage st !! id = Some p ->
  Playlist.admin p = caller ->
  candidates ≠ [] ->
  ∃ added,
    NoDup added
    ∧ added `sublist_of` candidates
    ∧ (∀ x, x ∈ added
            ↔ x ∈ candidates ∧ is_Some (songsStorage st !! x)
              ∧ (x ∉ Playlist.songs p))
    ∧ addSongsToPlaylist caller now id candidates st
      = if decide (added = []) then (st, Err nothingAdded)
        else
          let p' :=
            Playlist.mk id (Playlist.admin p) (Playlist.name p)
                        (Playlist.description p)
                        (Playlist.songs p ++ added)
                        (Playlist.totalDuration p
                         + sumDurations (songsStorage st) added)
                        (Playlist.createdAt p) (Some now) in
          (mkState (songsStorage st) (<[id := p']> (playlistsStorage st)),
           Ok p').
Proof.
  intros Hreach Hp Hadmin Hne. apply reachable_well_formed in Hreach.
  destruct (well_formed_lookup _ _ _ Hreach Hp) as (_ & Hk & _).
  destruct (add_loop_appends (songsStorage st) candidates
              (withUpdatedAt p now, false) (wf_song_keys _ Hreach))
    as (added & Hnd & Hsub & Hmem & Heq).
  exists added. split_and!; [done | done | done |].
  rewrite (addSongsToPlaylist_admin _ _ _ _ p) by done. simpl in *.
  rewrite Heq. simpl. rewrite Hk. destruct (decide (added = [])) as [->|Hadd].
  - done.
  - by rewrite bool_decide_eq_true_2.
Qed.

Lemma addSongs_appends_new_ones_witness :
  reachable demo
  ∧ playlistsStorage demo !! "p" = Some demo_playlist
  ∧ ∃ added : list string,
      (∀ x, x ∈ added
            ↔ x ∈ ["zz"; "c"; "a"; "c"] ∧ is_Some (songsStorage demo !! x)
              ∧ (x ∉ Playlist.songs demo_playlist))
      ∧ (addSongsToPlaylist "alice" 9 "p" ["zz"; "c"; "a"; "c"] demo).2
        = Ok (Playlist.mk "p" "alice" "Mix" "My mix" ["a"; "b"; "c"] 365 4
                          (Some 9%N)).
Proof.
  split_and!; [auto with demo | auto with demo |].
  destruct (addSongs_appends_new_ones demo "alice" 9%N "p" demo_playlist
              ["zz"; "c"; "a"; "c"])
    as (added & _ & _ & Hmem & _).
  - apply demo_reachable.
  - apply demo_lookup.
  - reflexivity.
  - discriminate.
  - exists added. split; [done | by vm_compute].
Defined.

(** X13: in a reachable state where the playlist's total is not
    negative, adding one catalogued song that is not yet a member and
    then removing it again gives back the [songs] and [totalDuration]
    the playlist had; only [updatedAt] tells of the two calls. *)
Theorem add_then_delete_restores st caller t1 t2 id p s song :
  reachable st ->
  playlistsStorage st !! id = Some p ->
  Playlist.admin p = caller ->
  songsStorage st !! s = Some song ->
  s ∉ Playlist.songs p ->
  0 ≤ Playlist.totalDuration p ->
  deleteSongFromPlaylist caller t2 id s
    (addSongsToPlaylist caller t1 id [s] st).1
  = (mkState (songsStorage st)
       (<[id := withUpdatedAt p t2]> (playlistsStorage st)),
     Ok (withUpdatedAt p t2)).
Proof.
  intros Hreach Hp Hadmin Hs Hnew Htotal.
  apply reachable_well_formed in Hreach.
  destruct (well_formed_lookup _ _ _ Hreach Hp) as (Hid & Hk & Hnd & _).
  assert (s ≠ "") as Hsne.
  { intros ->. rewrite (wf_song_keys _ Hreach) in Hs. done. }
  rewrite (addSongsToPlaylist_admin _ _ _ _ p) by done. simpl.
  rewrite (addSong_push _ (withUpdatedAt p t1, false) s song Hs Hnew).
  simpl. rewrite Hk.
  rewrite (deleteSongFromPlaylist_admin _ _ _ _ _
             (pushSong (withUpdatedAt p t1) s (Song.duration song)));
    [|done | done | apply lookup_insert_eq | done].
  simpl.
  assert (NoDup (Playlist.songs p ++ [s])) as Hnd'.
  { apply NoDup_app. split_and!; [done | | apply NoDup_singleton].
    intros y Hy ->%list_elem_of_singleton. done. }
  destruct (findIndex _ _) as [i|] eqn:Hi.
  - apply findIndex_Some in Hi as [Hi _]. unfold splice1.
    rewrite (delete_NoDup_filter _ s i Hnd' Hi), Hs.
    rewrite durationAfterDelete_subtract by (simpl; lia).
    rewrite filter_app, filter_cons_False by (intros Hx; by apply Hx).
    rewrite filter_nil, app_nil_r.
    assert (filter (λ y, y ≠ s) (Playlist.songs p) = Playlist.songs p) as ->.
    { clear -Hnew. induction (Playlist.songs p) as [|a l IH]; [done|].
      apply not_elem_of_cons in Hnew as [Ha Hl].
      rewrite filter_cons_True by congruence. by rewrite IH. }
    simpl. rewrite Hk, insert_insert_eq. unfold withUpdatedAt. rewrite Hk.
    replace (Playlist.totalDuration p + Song.duration song
             - Song.duration song) with (Playlist.totalDuration p) by lia.
    done.
  - apply findIndex_None in Hi. exfalso. apply Hi, elem_of_app. right.
    apply list_elem_of_here.
Qed.

Lemma add_then_delete_restores_witness :
  reachable demo
  ∧ playlistsStorage demo !! "p" = Some demo_playlist
  ∧ (deleteSongFromPlaylist "alice" 9 "p" "c"
       (addSongsToPlaylist "alice" 8 "p" ["c"] demo).1).2
    = Ok (Playlist.mk "p" "alice" "Mix" "My mix" ["a"; "b"] 320 4 (Some 9%N)).
Proof.
  split_and!; [auto with demo | auto with demo |].
  rewrite (add_then_delete_restores demo "alice" 8%N 9%N "p" demo_playlist
             "c" songC).
  - reflexivity.
  - apply demo_reachable.
  - apply demo_lookup.
  - reflexivity.
  - by vm_compute.
  - literal_notin.
  - simpl. lia.
Defined.

(** ** The further queries *)

Lemma member_songs_found (songs : gmap string Song) (ids : list string) :
  (∀ k song, songs !! k = Some song -> Song.id song = k) ->
  (∀ x, x ∈ ids -> is_Some (songs !! x)) ->
  ∃ l : list Song,
    List.map (fun songId => songs !! songId) ids = List.map Some l
    ∧ List.map Song.id l = ids
    ∧ Forall (fun song => songs !! Song.id song = Some song) l
    ∧ sumDurations songs ids = foldr Z.add 0 (List.map Song.duration l).
Proof.
  intros Hkeyed. induction ids as [|x ids IH]; intros Hall.
  - exists []. by split_and!.
  - destruct (Hall x (list_elem_of_here _ _)) as [song Hx].
    destruct IH as (l & Hl & Hids & Hf & Hsum).
    { intros y Hy. apply Hall. by apply list_elem_of_further. }
    pose proof (Hkeyed x song Hx) as Hid.
    exists (song :: l). simpl. split_and!.
    + by rewrite Hx, Hl.
    + by rewrite Hid, Hids.
    + apply Forall_cons. split; [by rewrite Hid | done].
    + by rewrite sumDurations_cons, Hx, Hsum.
Qed.

(** X14: in a reachable state [getPlaylistSongs] of a stored playlist
    has no undefined entry: it returns, in the order of [songs], the
    catalogue records of the members, each of which carries the id it is
    listed under. *)
Theorem getPlaylistSongs_all_found st id p :
  reachable st ->
  playlistsStorage st !! id = Some p ->
  ∃ l : list Song,
    getPlaylistSongs id st = Ok (List.map Some l)
    ∧ List.map Song.id l = Playlist.songs p
    ∧ Forall (fun song => songsStorage st !! Song.id song = Some song) l.
Proof.
  intros Hreach Hp. pose proof (songs_keyed_reachable _ _ Hreach) as Hkeyed.
  apply reachable_well_formed in Hreach.
  destruct (well_formed_lookup _ _ _ Hreach Hp) as (_ & _ & _ & Hmem).
  destruct (member_songs_found _ _ Hkeyed Hmem) as (l & Hl & Hids & Hf & _).
  exists l. unfold getPlaylistSongs. rewrite Hp, Hl. by split_and!.
Qed.

(** [getPlaylistSongCount] hands the length to [int64(...)]: for a
    stored playlist the call ends in the exception, and only a missing
    playlist gets an answer. *)
Lemma getPlaylistSongCount_outcome st id :
  getPlaylistSongCount id st
  = match playlistsStorage st !! id with
    | Some _ => None
    | None => Some (Err (ErrMessages.recordWithIdNotFound "Playlist" id))
    end.
Proof. unfold getPlaylistSongCount. by case_match. Qed.

Lemma getPlaylistSongs_all_found_witness :
  reachable demo
  ∧ playlistsStorage demo !! "p" = Some demo_playlist
  ∧ ∃ l : list Song,
      getPlaylistSongs "p" demo = Ok (List.map Some l)
      ∧ List.map Song.id l = ["a"; "b"].
Proof.
  split_and!; [auto with demo | auto with demo |].
  destruct (getPlaylistSongs_all_found demo "p" demo_playlist)
    as (l & Hl & Hids & _).
  - apply demo_reachable.
  - apply demo_lookup.
  - by exists l.
Defined.

(** X15: in every state reached by calls that keep catalogue durations
    non-negative and fixed, [getPlaylistTotalDuration] is the sum of the
    durations of the songs that [getPlaylistSongs] returns. *)
Theorem total_is_sum_of_listed_songs st id p :
  reachable_via duration_safe st ->
  playlistsStorage st !! id = Some p ->
  ∃ l : list Song,
    getPlaylistSongs id st = Ok (List.map Some l)
    ∧ getPlaylistTotalDuration id st
      = Ok (foldr Z.add 0 (List.map Song.duration l)).
Proof.
  intros Hreach Hp. pose proof (songs_keyed_reachable _ _ Hreach) as Hkeyed.
  apply duration_safe_reachable in Hreach as [Hwf _ Htotal].
  destruct (well_formed_lookup _ _ _ Hwf Hp) as (_ & _ & _ & Hmem).
  destruct (member_songs_found _ _ Hkeyed Hmem) as (l & Hl & _ & _ & Hsum).
  exists l. unfold getPlaylistSongs, getPlaylistTotalDuration.
  rewrite Hp, Hl. split; [done|]. by rewrite (Htotal id p Hp), Hsum.
Qed.

Lemma total_is_sum_of_listed_songs_witness :
  reachable_via duration_safe demo
  ∧ playlistsStorage demo !! "p" = Some demo_playlist
  ∧ ∃ l : list Song,
      getPlaylistSongs "p" demo = Ok (List.map Some l)
      ∧ getPlaylistTotalDuration "p" demo
        = Ok (foldr Z.add 0 (List.map Song.duration l)).
Proof.
  assert (reachable_via duration_safe demo) as Hreach.
  { apply reachable_via_run; [apply reach_init | by vm_compute]. }
  split_and!; [done | auto with demo |].
  apply (total_is_sum_of_listed_songs demo "p" demo_playlist Hreach).
  apply demo_lookup.
Defined.

Lemma elem_of_List_filter {A : Type} (f : A -> bool) (l : list A) (x : A) :
  x ∈ List.filter f l <-> x ∈ l ∧ f x = true.
Proof. rewrite !list_elem_of_In. apply filter_In. Qed.

Lemma includes_true (l : list string) (x : string) :
  includes l x = true <-> x ∈ l.
Proof.
  unfold includes. rewrite existsb_exists. split.
  - intros (y & Hy & ->%strict_eq_true). by apply list_elem_of_In.
  - intros Hx. exists x. split; [by apply list_elem_of_In|].
    by apply strict_eq_true.
Qed.

(** X16: the three filtering queries are exact.  [getSongsByGenre]
    returns the stored songs of that genre and no other record,
    [getSongsBySinger] the stored songs that list that singer, and
    [getPlaylistsByAdmin] the stored playlists of that admin. *)
Theorem filter_queries_exact st :
  (∀ genre, ∃ l,
     getSongsByGenre genre st = Ok l
     ∧ ∀ song, song ∈ l ↔ (∃ k, songsStorage st !! k = Some song)
                          ∧ Song.genre song = genre)
  ∧ (∀ singer, ∃ l,
       getSongsBySinger singer st = Ok l
       ∧ ∀ song, song ∈ l ↔ (∃ k, songsStorage st !! k = Some song)
                            ∧ singer ∈ Song.singers song)
  ∧ (∀ admin, ∃ l,
       getPlaylistsByAdmin admin st = Ok l
       ∧ ∀ p, p ∈ l ↔ (∃ k, playlistsStorage st !! k = Some p)
                      ∧ Playlist.admin p = admin).
Proof.
  split_and!; intros key; eexists; (split; [reflexivity|]); intros r;
    rewrite elem_of_List_filter, elem_of_values.
  - by rewrite strict_eq_true.
  - by rewrite includes_true.
  - by rewrite strict_eq_true.
Qed.

Lemma someGenre_found (songs : gmap string Song) genre (ids : list string) :
  (∀ x, x ∈ ids -> is_Some (songs !! x)) ->
  ∃ b, someGenre genre (List.map (fun songId => songs !! songId) ids) = Some b
       ∧ (b = true ↔ ∃ x song, x ∈ ids ∧ songs !! x = Some song
                               ∧ Song.genre song = genre).
Proof.
  induction ids as [|x ids IH]; intros Hall; simpl.
  - exists false. split; [done|]. split; [done|].
    intros (x & song & Hx & _). by apply elem_of_nil in Hx.
  - destruct (Hall x (list_elem_of_here _ _)) as [song Hx]. rewrite Hx.
    destruct (strict_eq (Song.genre song) genre) eqn:Hg.
    + exists true. split; [done|]. split; [|done]. intros _.
      exists x, song. apply strict_eq_true in Hg.
      split_and!; [apply list_elem_of_here | done | done].
    + destruct IH as (b & Hb & Hiff).
      { intros y Hy. apply Hall. by apply list_elem_of_further. }
      exists b. split; [done|]. rewrite Hiff. apply strict_eq_false in Hg.
      split.
      * intros (y & sg & Hy & Hs & Hgen). exists y, sg.
        split_and!; [by apply list_elem_of_further | done | done].
      * intros (y & sg & Hy & Hs & Hgen).
        apply elem_of_cons in Hy as [-> | Hy]; [congruence|].
        by exists y, sg.
Qed.

Lemma filterThrowing_total {A : Type} (f : A -> option bool) (l : list A) :
  (∀ x, x ∈ l -> is_Some (f x)) ->
  ∃ kept, filterThrowing f l = Some kept
          ∧ ∀ x, x ∈ kept ↔ x ∈ l ∧ f x = Some true.
Proof.
  induction l as [|a l IH]; intros Hall; simpl.
  - exists []. split; [done|]. intros x. rewrite !elem_of_nil. tauto.
  - destruct (Hall a (list_elem_of_here _ _)) as [keep Ha]. rewrite Ha.
    destruct IH as (kept & -> & Hiff).
    { intros y Hy. apply Hall. by apply list_elem_of_further. }
    eexists. split; [reflexivity|]. intros x.
    destruct keep; rewrite ?elem_of_cons, Hiff, ?elem_of_cons.
    + split; [intros [-> | [? ?]]; auto | intros [[-> | ?] ?]; auto].
    + split; [intros [? ?]; auto | intros [[-> | ?] ?]; [congruence | auto]].
Qed.

(** X17: in a reachable state [getPlaylistsByGenre] never reads a field
    of a missing song, so it does not throw; it returns the stored
    playlists that have a member of that genre, and no other record. *)
Theorem getPlaylistsByGenre_never_throws st genre :
  reachable st ->
  ∃ l, getPlaylistsByGenre genre st = Some (Ok l)
       ∧ ∀ p, p ∈ l
              ↔ (∃ k, playlistsStorage st !! k = Some p)
                ∧ ∃ x song, x ∈ Playlist.songs p
                            ∧ songsStorage st !! x = Some song
                            ∧ Song.genre song = genre.
Proof.
  intros Hreach. apply reachable_well_formed in Hreach.
  assert (∀ p, p ∈ values (playlistsStorage st) ->
               ∀ x, x ∈ Playlist.songs p -> is_Some (songsStorage st !! x))
    as Hmem.
  { intros p [k Hk]%elem_of_values.
    by destruct (well_formed_lookup _ _ _ Hreach Hk) as (_ & _ & _ & H). }
  unfold getPlaylistsByGenre.
  destruct (filterThrowing_total
              (fun playlist =>
                 someGenre genre
                   (List.map (fun songId => songsStorage st !! songId)
                             (Playlist.songs playlist)))
              (values (playlistsStorage st))) as (kept & -> & Hkept).
  { intros p Hp.
    destruct (someGenre_found (songsStorage st) genre (Playlist.songs p)
                (Hmem p Hp)) as (b & -> & _). eauto. }
  exists kept. split; [done|]. intros p. rewrite Hkept.
  split.
  - intros [Hp Hsome]. split; [by apply elem_of_values|].
    destruct (someGenre_found (songsStorage st) genre (Playlist.songs p)
                (Hmem p Hp)) as (b & Hb & Hiff).
    apply Hiff. congruence.
  - intros [Hp%elem_of_values Hex]. split; [done|].
    destruct (someGenre_found (songsStorage st) genre (Playlist.songs p)
                (Hmem p Hp)) as (b & Hb & Hiff).
    rewrite Hb. f_equal. by apply Hiff.
Qed.

Lemma getPlaylistsByGenre_never_throws_witness :
  reachable demo
  ∧ ∃ l, getPlaylistsByGenre "pop" demo = Some (Ok l) ∧ demo_playlist ∈ l.
Proof.
  split; [auto with demo|].
  destruct (getPlaylistsByGenre_never_throws demo "pop" demo_reachable)
    as (l & Hl & Hiff).
  exists l. split; [done|]. apply Hiff. split.
  - exists "p". apply demo_lookup.
  - exists "b", (Song.mk "b" "b.mp4" "audio/mp4" "Song B" ["y"] "pop" 200
                         "2021" 2).
    split_and!; [|by vm_compute | reflexivity].
    simpl. apply list_elem_of_further, list_elem_of_here.
Defined.

(** The exception is there in the code: with a member that is not in
    the catalogue, which no sequence of calls produces, the query ends
    in the [TypeError]. *)
Lemma getPlaylistsByGenre_dangling_member :
  getPlaylistsByGenre "pop"
    (mkState ∅ {["p" := Playlist.mk "p" "alice" "Mix" "My mix" ["gone"] 0 4
                                    None]})
  = None.
Proof. by vm_compute. Qed.

(** ** The later revisions *)

Section revisions.
Variable trim : string -> string.
Variable insertThrows : gmap string Playlist -> string -> Playlist -> bool.

Lemma blank_true s : Revision2.blank trim s = true <-> s = "" ∨ trim s = "".
Proof.
  unfold Revision2.blank, truthy. rewrite orb_true_iff, !negb_involutive.
  by rewrite !strict_eq_true.
Qed.

Lemma blank_false s :
  Revision2.blank trim s = false <-> s ≠ "" ∧ trim s ≠ "".
Proof.
  rewrite <- not_true_iff_false, blank_true. tauto.
Qed.

(** Where [trim] empties no text but the empty one, the guard of the
    second revision is the guard of the first. *)
Lemma blank_strict_eq s :
  (trim s = "" -> s = "") -> Revision2.blank trim s = strict_eq s "".
Proof.
  intros Htrim. destruct (strict_eq s "") eqn:Hs.
  - apply blank_true. left. by apply strict_eq_true.
  - apply blank_false. apply strict_eq_false in Hs. tauto.
Qed.

(** X18: the second revision of [uploadSong] refuses a [fileName],
    [mimeType] or [title] that is empty or that [trim] empties, and an
    empty [singers], with the error of the first such field in the order
    fileName, mimeType, title, singers; nothing is written. *)
Theorem revision2_uploadSong_rejects_blank uuid now payload st :
  let blank s := s = "" ∨ trim s = "" in
  (blank (SongPayload.fileName payload) ->
   Revision2.uploadSong trim uuid now payload st
   = (st, Err "File name cannot be empty."))
  ∧ (¬ blank (SongPayload.fileName payload) ->
     blank (SongPayload.mimeType payload) ->
     Revision2.uploadSong trim uuid now payload st
     = (st, Err "File type cannot be empty."))
  ∧ (¬ blank (SongPayload.fileName payload) ->
     ¬ blank (SongPayload.mimeType payload) ->
     blank (SongPayload.title payload) ->
     Revision2.uploadSong trim uuid now payload st
     = (st, Err "Title cannot be empty."))
  ∧ (¬ blank (SongPayload.fileName payload) ->
     ¬ blank (SongPayload.mimeType payload) ->
     ¬ blank (SongPayload.title payload) ->
     SongPayload.singers payload = [] ->
     Revision2.uploadSong trim uuid now payload st
     = (st, Err "You must provide singer(s).")).
Proof.
  intros blank. subst blank. unfold Revision2.uploadSong.
  assert (∀ s, ¬ (s = "" ∨ trim s = "") -> Revision2.blank trim s = false)
    as Hno.
  { intros s Hs. apply blank_false. tauto. }
  split_and!.
  - intros Hf%blank_true. by rewrite Hf.
  - intros Hf%Hno Hm%blank_true. by rewrite Hf, Hm.
  - intros Hf%Hno Hm%Hno Ht%blank_true. by rewrite Hf, Hm, Ht.
  - intros Hf%Hno Hm%Hno Ht%Hno ->. by rewrite Hf, Hm, Ht.
Qed.

(** X19: off the blank inputs the second revision answers as the
    first does, except where it evaluates [int64(0)].  [uploadSong],
    [getSong], [getPlaylist], [updatePlaylist], [addSongsToPlaylist]
    (non-empty list) and [deletePlaylist] return what the first revision
    returns.  [createPlaylist] returns the refusals of the first
    revision and throws where the first would create the playlist.
    [deleteSongFromPlaylist] returns what the first returns as long as
    no member is to be removed, and throws when the admin asks to remove
    a member. *)
Theorem revision2_agrees_off_blank :
  (∀ uuid now payload st,
     (trim (SongPayload.fileName payload) = "" ->
      SongPayload.fileName payload = "") ->
     (trim (SongPayload.mimeType payload) = "" ->
      SongPayload.mimeType payload = "") ->
     (trim (SongPayload.title payload) = "" ->
      SongPayload.title payload = "") ->
     Revision2.uploadSong trim uuid now payload st
     = uploadSong uuid now payload st)
  ∧ (∀ uuid caller now payload st,
       (trim (PlaylistPayload.name payload) = "" ->
        PlaylistPayload.name payload = "") ->
       Revision2.createPlaylist trim uuid caller now payload st
       = match (createPlaylist uuid caller now payload st).2 with
         | Ok _ => None
         | Err _ => Some (createPlaylist uuid caller now payload st)
         end)
  ∧ (∀ id st,
       (trim id = "" -> id = "") ->
       Revision2.getSong trim id st = getSong id st
       ∧ Revision2.getPlaylist trim id st = getPlaylist id st)
  ∧ (∀ caller now id payload st,
       id ≠ "" -> trim id ≠ "" ->
       Revision2.updatePlaylist trim caller now id payload st
       = updatePlaylist caller now id payload st)
  ∧ (∀ caller now id songs st,
       id ≠ "" -> trim id ≠ "" -> songs ≠ [] ->
       Revision2.addSongsToPlaylist trim caller now id songs st
       = addSongsToPlaylist caller now id songs st)
  ∧ (∀ caller id st,
       id ≠ "" -> trim id ≠ "" ->
       Revision2.deletePlaylist trim caller id st
       = deletePlaylist caller id st)
  ∧ (∀ caller now playlistId songId st,
       (trim playlistId = "" -> playlistId = "") ->
       (trim songId = "" -> songId = "") ->
       (playlistId = "" ∨ songId = ""
        ∨ ∀ p, playlistsStorage st !! playlistId = Some p ->
               Playlist.admin p = caller -> songId ∉ Playlist.songs p) ->
       Revision2.deleteSongFromPlaylist trim caller now playlistId songId st
       = Some (deleteSongFromPlaylist caller now playlistId songId st))
  ∧ (∀ caller now playlistId songId st p,
       playlistId ≠ "" -> trim playlistId ≠ "" ->
       songId ≠ "" -> trim songId ≠ "" ->
       playlistsStorage st !! playlistId = Some p ->
       Playlist.admin p = caller ->
       songId ∈ Playlist.songs p ->
       Revision2.deleteSongFromPlaylist trim caller now playlistId songId st
       = None).
Proof.
  split_and!.
  - intros uuid now payload st Hf Hm Ht.
    unfold Revision2.uploadSong, uploadSong.
    by rewrite !blank_strict_eq.
  - intros uuid caller now payload st Hn.
    unfold Revision2.createPlaylist, createPlaylist.
    rewrite blank_strict_eq by done.
    destruct (strict_eq (PlaylistPayload.name payload) ""); [done|].
    by destruct (List.find _ _).
  - intros id st Hid.
    unfold Revision2.getSong, Revision2.getPlaylist, getSong, getPlaylist.
    by rewrite blank_strict_eq.
  - intros caller now id payload st Hid Htrim.
    unfold Revision2.updatePlaylist, updatePlaylist.
    by rewrite (proj2 (blank_false id)).
  - intros caller now id songs st Hid Htrim Hsongs.
    unfold Revision2.addSongsToPlaylist, addSongsToPlaylist.
    by rewrite (proj2 (blank_false id)), length_check_passes.
  - intros caller id st Hid Htrim.
    unfold Revision2.deletePlaylist, deletePlaylist.
    by rewrite (proj2 (blank_false id)).
  - intros caller now playlistId songId st Hp Hs Hstay.
    unfold Revision2.deleteSongFromPlaylist, deleteSongFromPlaylist.
    rewrite !blank_strict_eq by done.
    destruct (strict_eq playlistId "") eqn:Hpe; [done|].
    destruct (strict_eq songId "") eqn:Hse; [done|].
    apply strict_eq_false in Hpe, Hse.
    destruct Hstay as [? | [? | Hstay]]; [done | done |].
    destruct (playlistsStorage st !! playlistId) as [p|] eqn:Hlook; [|done].
    destruct (strict_eq (Playlist.admin p) caller) eqn:Ha; [|done]. simpl.
    apply strict_eq_true in Ha.
    destruct (findIndex _ _) as [i|] eqn:Hi; [|done]. exfalso.
    apply findIndex_Some in Hi as [Hi _].
    apply (Hstay p eq_refl Ha). by eapply list_elem_of_lookup_2.
  - intros caller now playlistId songId st p Hpe Hpt Hse Hst Hlook Ha Hin.
    unfold Revision2.deleteSongFromPlaylist.
    rewrite (proj2 (blank_false playlistId)), (proj2 (blank_false songId)),
      Hlook, admin_check_passes by done.
    destruct (findIndex _ _) as [i|] eqn:Hi;
      [|by apply findIndex_None in Hi].
    unfold Revision2.durationAfterDelete.
    by destruct (songsStorage st !! songId).
Qed.

(** X21: the third revision of [updatePlaylist] refuses, before it
    looks the playlist up and without writing, a payload whose name or
    description is empty or emptied by [trim].  For any other payload it
    answers not-found for a missing playlist; for a stored one and its
    admin it builds the renamed record and either stores and returns it
    or, when the insertion throws, returns its insertion error and
    writes nothing. *)
Theorem revision3_updatePlaylist_validates caller now id payload st :
  ((PlaylistPayload.name payload = ""
    ∨ PlaylistPayload.description payload = ""
    ∨ trim (PlaylistPayload.name payload) = ""
    ∨ trim (PlaylistPayload.description payload) = "") ->
   Revision3.updatePlaylist trim insertThrows caller now id payload st
   = (st, Err "name or description cannot be empty."))
  ∧ (PlaylistPayload.name payload ≠ "" ->
     PlaylistPayload.description payload ≠ "" ->
     trim (PlaylistPayload.name payload) ≠ "" ->
     trim (PlaylistPayload.description payload) ≠ "" ->
     playlistsStorage st !! id = None ->
     Revision3.updatePlaylist trim insertThrows caller now id payload st
     = (st, Err ("Couldn't update the playlist with id=" +:+ id
                 +:+ ", because the record was not found.")))
  ∧ (∀ p,
       PlaylistPayload.name payload ≠ "" ->
       PlaylistPayload.description payload ≠ "" ->
       trim (PlaylistPayload.name payload) ≠ "" ->
       trim (PlaylistPayload.description payload) ≠ "" ->
       playlistsStorage st !! id = Some p ->
       Playlist.admin p = caller ->
       let updated :=
         Playlist.mk (Playlist.id p) (Playlist.admin p)
                     (PlaylistPayload.name payload)
                     (PlaylistPayload.description payload)
                     (Playlist.songs p) (Playlist.totalDuration p)
                     (Playlist.createdAt p) (Some now) in
       Revision3.updatePlaylist trim insertThrows caller now id payload st
       = if insertThrows (playlistsStorage st) (Playlist.id p) updated
         then (st, Err "Error inserting the updated playlist into the playlistsStorage")
         else (mkState (songsStorage st)
                 (<[Playlist.id p := updated]> (playlistsStorage st)),
               Ok updated)).
Proof.
  unfold Revision3.updatePlaylist. split_and!.
  - intros H.
    assert (negb (truthy (PlaylistPayload.name payload))
            || negb (truthy (PlaylistPayload.description payload))
            || strict_eq (trim (PlaylistPayload.name payload)) ""
            || strict_eq (trim (PlaylistPayload.description payload)) ""
            = true) as ->; [|done].
    unfold truthy. rewrite !orb_true_iff, !negb_involutive, !strict_eq_true.
    tauto.
  - intros Hn%truthy_true Hd%truthy_true Htn%strict_eq_false
           Htd%strict_eq_false Hp.
    by rewrite Hn, Hd, Htn, Htd, Hp.
  - intros p Hn%truthy_true Hd%truthy_true Htn%strict_eq_false
           Htd%strict_eq_false Hp Ha.
    rewrite Hn, Hd, Htn, Htd, Hp. simpl. by rewrite admin_check_passes.
Qed.

End revisions.

Lemma revision2_uploadSong_rejects_blank_witness :
  Revision2.uploadSong trimAscii "u" 9
    (SongPayload.mk "a.mp4" "   " "Song" ["x"] "rock" 120 "2020") demo
  = (demo, Err "File type cannot be empty.").
Proof.
  apply (revision2_uploadSong_rejects_blank trimAscii "u" 9%N
           (SongPayload.mk "a.mp4" "   " "Song" ["x"] "rock" 120 "2020")
           demo).
  - intros [H | H]; discriminate.
  - right. reflexivity.
Defined.

Lemma revision2_agrees_off_blank_witness :
  Revision2.addSongsToPlaylist trimAscii "alice" 9 "p" ["c"] demo
  = addSongsToPlaylist "alice" 9 "p" ["c"] demo
  ∧ Revision2.createPlaylist trimAscii "q" "bob" 9
      (PlaylistPayload.mk "Road" "Trip") demo
    = None
  ∧ Revision2.createPlaylist trimAscii "q" "bob" 9
      (PlaylistPayload.mk "Mix" "Trip") demo
    = Some (demo, Err "Playlist already exists.")
  ∧ Revision2.deleteSongFromPlaylist trimAscii "alice" 9 "p" "c" demo
    = Some (demo, Ok demo_playlist)
  ∧ Revision2.deleteSongFromPlaylist trimAscii "alice" 9 "p" "a" demo
    = None.
Proof.
  destruct (revision2_agrees_off_blank trimAscii)
    as (_ & Hcreate & _ & _ & Hadd & _ & Hstay & Hthrow).
  split_and!.
  - apply Hadd; discriminate.
  - rewrite Hcreate by discriminate. by vm_compute.
  - rewrite Hcreate by discriminate. by vm_compute.
  - rewrite Hstay; [by vm_compute | discriminate | discriminate |].
    right. right. intros p Hp _. rewrite demo_lookup in Hp.
    injection Hp as <-. literal_notin.
  - apply (Hthrow "alice" 9%N "p" "a" demo demo_playlist);
      [discriminate | discriminate | discriminate | discriminate
      | apply demo_lookup | reflexivity |].
    simpl. apply list_elem_of_here.
Defined.

Lemma revision3_updatePlaylist_validates_witness :
  Revision3.updatePlaylist trimAscii (fun _ _ _ => false) "alice" 9 "p"
    (PlaylistPayload.mk "Road" "   ") demo
  = (demo, Err "name or description cannot be empty.")
  ∧ Revision3.updatePlaylist trimAscii (fun _ _ _ => true) "alice" 9 "p"
      (PlaylistPayload.mk "Road" "Trip") demo
    = (demo,
       Err "Error inserting the updated playlist into the playlistsStorage").
Proof.
  split.
  - apply (proj1 (revision3_updatePlaylist_validates trimAscii
                    (fun _ _ _ => false) "alice" 9%N "p"
                    (PlaylistPayload.mk "Road" "   ") demo)).
    right. right. right. reflexivity.
  - destruct (revision3_updatePlaylist_validates trimAscii
                (fun _ _ _ => true) "alice" 9%N "p"
                (PlaylistPayload.mk "Road" "Trip") demo) as (_ & _ & H).
    apply (H demo_playlist);
      [discriminate | discriminate | discriminate | discriminate
      | apply demo_lookup | reflexivity].
Defined.

(** X20: the third revision of [createPlaylist] refuses an empty name
    or an empty description with the incomplete-payload error and writes
    nothing; its two later comparisons with the empty string can then no
    longer succeed, so their errors are never returned.  With both texts
    non-empty and the name not in use it builds the empty playlist and
    either stores and returns it or, when the insertion throws, returns
    its insertion error and writes nothing. *)
Theorem revision3_createPlaylist_checks
    (insertThrows : gmap string Playlist -> string -> Playlist -> bool)
    uuid caller now payload st :
  ((PlaylistPayload.name payload = ""
    ∨ PlaylistPayload.description payload = "") ->
   Revision3.createPlaylist insertThrows uuid caller now payload st
   = (st, Err "Payload must include 'name' and 'description' properties."))
  ∧ (Revision3.createPlaylist insertThrows uuid caller now payload st).2
    ≠ Err "Playlist name cannot be empty."
  ∧ (Revision3.createPlaylist insertThrows uuid caller now payload st).2
    ≠ Err "Playlist description cannot be empty."
  ∧ (PlaylistPayload.name payload ≠ "" ->
     PlaylistPayload.description payload ≠ "" ->
     (∀ k p, playlistsStorage st !! k = Some p ->
             Playlist.name p ≠ PlaylistPayload.name payload) ->
     let playlist :=
       Playlist.mk uuid caller (PlaylistPayload.name payload)
                   (PlaylistPayload.description payload) [] 0 now None in
     Revision3.createPlaylist insertThrows uuid caller now payload st
     = if insertThrows (playlistsStorage st) uuid playlist
       then (st, Err ("Error inserting the " +:+ PlaylistPayload.name payload
                      +:+ " playlist. Please try again."))
       else (mkState (songsStorage st)
               (<[uuid := playlist]> (playlistsStorage st)),
             Ok playlist)).
Proof.
  unfold Revision3.createPlaylist, truthy.
  rewrite !negb_involutive.
  destruct (strict_eq (PlaylistPayload.name payload) "") eqn:Hn;
    [apply strict_eq_true in Hn | apply strict_eq_false in Hn];
    (destruct (strict_eq (PlaylistPayload.description payload) "") eqn:Hd;
     [apply strict_eq_true in Hd | apply strict_eq_false in Hd]); simpl.
  - split_and!; [done | discriminate | discriminate | done].
  - split_and!; [done | discriminate | discriminate | done].
  - split_and!; [done | discriminate | discriminate | done].
  - split_and!; [tauto | | |].
    + repeat case_match; simpl; discriminate.
    + repeat case_match; simpl; discriminate.
    + intros _ _ Hnew.
      rewrite (proj2 (find_none_iff _ _)); [done|].
      intros p [k Hk]%elem_of_values. apply strict_eq_false. eauto.
Qed.

Lemma revision3_createPlaylist_checks_witness :
  Revision3.createPlaylist (fun _ _ _ => false) "q" "bob" 9
    (PlaylistPayload.mk "Road" "") demo
  = (demo, Err "Payload must include 'name' and 'description' properties.")
  ∧ Revision3.createPlaylist (fun _ _ _ => true) "q" "bob" 9
      (PlaylistPayload.mk "Road" "Trip") demo
    = (demo, Err "Error inserting the Road playlist. Please try again.").
Proof.
  split.
  - apply (proj1 (revision3_createPlaylist_checks (fun _ _ _ => false) "q"
                    "bob" 9%N (PlaylistPayload.mk "Road" "") demo)).
    right. reflexivity.
  - destruct (revision3_createPlaylist_checks (fun _ _ _ => true) "q" "bob"
                9%N (PlaylistPayload.mk "Road" "Trip") demo)
      as (_ & _ & _ & H).
    apply H; [discriminate | discriminate |].
    intros k p Hk.
    assert (playlistsStorage demo = {["p" := demo_playlist]}) as Hpl
      by (by vm_compute).
    rewrite Hpl in Hk. apply lookup_singleton_Some in Hk as [_ <-].
    discriminate.
Defined.

(** ** More on songs and removals *)

(** X22: in a reachable state [updateSong] on a stored song succeeds
    for any caller and any payload, without the emptiness and duplicate
    checks of [uploadSong]: it replaces the payload fields, keeps [id]
    and [uploadedAt], writes to no playlist, and [getSong] reads the new
    record back.  On an id that is not stored it fails and writes
    nothing. *)
Theorem updateSong_then_getSong st id payload :
  reachable st ->
  match songsStorage st !! id with
  | Some song =>
      let updated :=
        Song.mk id (SongPayload.fileName payload)
                (SongPayload.mimeType payload) (SongPayload.title payload)
                (SongPayload.singers payload) (SongPayload.genre payload)
                (SongPayload.duration payload)
                (SongPayload.releaseDate payload) (Song.uploadedAt song) in
      (updateSong id payload st).2 = Ok updated
      ∧ getSong id (updateSong id payload st).1 = Ok updated
      ∧ playlistsStorage (updateSong id payload st).1 = playlistsStorage st
  | None =>
      updateSong id payload st
      = (st, Err (ErrMessages.couldNotUpdate "song" id))
  end.
Proof.
  intros Hreach. pose proof (songs_keyed_reachable _ _ Hreach) as Hkeyed.
  apply reachable_well_formed in Hreach. unfold updateSong.
  destruct (songsStorage st !! id) as [song|] eqn:Hs; [|done]. simpl.
  rewrite (Hkeyed id song Hs). split_and!; [done | | done].
  unfold getSong. simpl.
  assert (strict_eq id "" = false) as ->.
  { apply strict_eq_false. intros ->.
    rewrite (wf_song_keys _ Hreach) in Hs. done. }
  by rewrite lookup_insert_eq.
Qed.

Lemma updateSong_then_getSong_witness :
  reachable demo
  ∧ getSong "a" (updateSong "a" (SongPayload.mk "" "" "" [] "" (-1) "")
                   demo).1
    = Ok (Song.mk "a" "" "" "" [] "" (-1) "" 1).
Proof.
  split; [auto with demo|].
  pose proof (updateSong_then_getSong demo "a"
                (SongPayload.mk "" "" "" [] "" (-1) "") demo_reachable) as H.
  vm_compute in H. by vm_compute.
Defined.

(** X23: whatever the state and the durations, whenever
    [deleteSongFromPlaylist] removes a member the [totalDuration] it
    stores and returns is not negative. *)
Theorem deleteSong_total_not_negative st caller now id p songId st' r :
  playlistsStorage st !! id = Some p ->
  songId ∈ Playlist.songs p ->
  deleteSongFromPlaylist caller now id songId st = (st', Ok r) ->
  0 ≤ Playlist.totalDuration r.
Proof.
  intros Hp Hin Hdel. unfold deleteSongFromPlaylist in Hdel.
  repeat (case_match; [done|]). rewrite Hp in Hdel.
  case_match; [done|].
  destruct (findIndex _ _) as [i|] eqn:Hi;
    [|by apply findIndex_None in Hi].
  injection Hdel as <- <-. simpl. unfold durationAfterDelete.
  destruct (songsStorage st !! songId) as [song|]; [|done].
  destruct (0 <=? _) eqn:Hle; [by apply Z.leb_le in Hle | done].
Qed.

Lemma deleteSong_total_not_negative_witness :
  playlistsStorage clamp_before !! "p"
  = Some (Playlist.mk "p" "alice" "Mix" "My mix" ["n"; "m"] (-2) 3 (Some 4%N))
  ∧ ∀ st' r,
      deleteSongFromPlaylist "alice" 5 "p" "m" clamp_before = (st', Ok r) ->
      0 ≤ Playlist.totalDuration r.
Proof.
  assert (playlistsStorage clamp_before !! "p"
          = Some (Playlist.mk "p" "alice" "Mix" "My mix" ["n"; "m"] (-2) 3
                              (Some 4%N))) as Hp by (by vm_compute).
  split; [done|]. intros st' r.
  apply (deleteSong_total_not_negative clamp_before "alice" 5%N "p" _ "m"
           st' r Hp).
  simpl. apply list_elem_of_further, list_elem_of_here.
Defined.

(** X24: in a reachable state, removing a member a second time changes
    nothing: the second call returns the record the first one stored,
    with the [updatedAt] of the first call, and writes nothing. *)
Theorem deleteSong_twice st caller t1 t2 id p songId :
  reachable st ->
  playlistsStorage st !! id = Some p ->
  Playlist.admin p = caller ->
  songId ∈ Playlist.songs p ->
  let first := deleteSongFromPlaylist caller t1 id songId st in
  deleteSongFromPlaylist caller t2 id songId first.1 = first
  ∧ ∃ r, first.2 = Ok r ∧ Playlist.updatedAt r = Some t1.
Proof.
  intros Hreach Hp Hadmin Hin first. subst first.
  apply reachable_well_formed in Hreach.
  destruct (well_formed_lookup _ _ _ Hreach Hp) as (Hid & Hk & Hnd & Hmem).
  assert (songId ≠ "") as Hsid.
  { intros ->. destruct (Hmem "" Hin) as [sg Hsg].
    rewrite (wf_song_keys _ Hreach) in Hsg. done. }
  rewrite (deleteSongFromPlaylist_admin st caller t1 id songId p) by done.
  destruct (findIndex _ _) as [i|] eqn:Hi;
    [|by apply findIndex_None in Hi].
  apply findIndex_Some in Hi as [Hi _]. simpl. split; [|eauto].
  rewrite Hk.
  erewrite deleteSongFromPlaylist_admin;
    [|done | done | apply lookup_insert_eq | done].
  simpl.
  assert (songId ∉ splice1 i (Playlist.songs p)) as Hgone.
  { unfold splice1. rewrite (delete_NoDup_filter _ songId i Hnd Hi).
    rewrite list_elem_of_filter. intros [Hx _]. by apply Hx. }
  apply findIndex_None in Hgone. by rewrite Hgone.
Qed.

Lemma deleteSong_twice_witness :
  reachable demo
  ∧ playlistsStorage demo !! "p" = Some demo_playlist
  ∧ deleteSongFromPlaylist "alice" 9 "p" "a"
      (deleteSongFromPlaylist "alice" 8 "p" "a" demo).1
    = deleteSongFromPlaylist "alice" 8 "p" "a" demo.
Proof.
  split_and!; [auto with demo | auto with demo |].
  apply (deleteSong_twice demo "alice" 8%N 9%N "p" demo_playlist "a").
  - apply demo_reachable.
  - apply demo_lookup.
  - reflexivity.
  - simpl. apply list_elem_of_here.
Defined.
